(** * tcpherald: the matchmaking engine of [PROGRAM::run] (src/program.cpp)

    A shallow embedding of the event loop of the two-sided TCP rendezvous
    broker, and the properties of its pairing tables, driver publication,
    idle reaper and shutdown path. *)

From Stdlib Require Import ZArith Lia.
From Stdlib Require Import Strings.Byte.
From stdpp Require Import base decidable option list gmap fin_maps fin_sets
  strings pretty.

Local Open Scope Z_scope.

(** ** Machine integers *)

(** [long long] arithmetic: the result of [+] and [-] on timestamps, reduced
    to the signed 64-bit range. *)
Definition wrap64 (z : Z) : Z := (z + 2 ^ 63) mod 2 ^ 64 - 2 ^ 63.

(** [size_t] arithmetic ([++new_demand]). *)
Definition wrap_size_t (n : N) : N := (n mod 2 ^ 64)%N.

(** Timestamps the wall clock can deliver without the 64-bit arithmetic of
    the loop leaving its range. *)
Definition clock_range (t : Z) : Prop := - 2 ^ 62 <= t < 2 ^ 62.

(** A [uint32_t] option value. *)
Definition uint32_range (n : Z) : Prop := 0 <= n < 2 ^ 32.

(** ** Constants of the C library and of sockets.h *)

(** Signal numbers of <signal.h> (Linux numbering). *)
Definition SIGINT : Z := 2.
Definition SIGQUIT : Z := 3.
Definition SIGPIPE : Z := 13.
Definition SIGALRM : Z := 14.
Definition SIGTERM : Z := 15.

Definition EXIT_SUCCESS : Z := 0.
Definition EXIT_FAILURE : Z := 1.

(** Modelled from the spec: [SOCKETS::NO_DESCRIPTOR] is declared in sockets.h,
    which is not among the sources.  The spec only asks for a value that is
    no descriptor; the model takes -1, which no file descriptor equals. *)
Definition NO_DESCRIPTOR : Z := -1.

(** ** The socket multiplexer *)

(** Requests the engine makes to the multiplexer, in the order made. *)
Inductive call : Type :=
| Disconnect (d : Z)
| Freeze (d : Z)
| Unfreeze (d : Z)
| Writef (d : Z) (text : string)
| AppendOutgoing (d : Z) (buf : list byte).

(** Modelled from the spec: the [SOCKETS] class (sockets.h) is not among the
    sources.  Its state, as far as the engine observes it: the listener of
    origin of every accepted descriptor, the frozen descriptors, the three
    event queues filled by [serve], the read buffers, and the requests
    received so far. *)
Record SOCKETS : Type := mkSOCKETS {
  listeners : gmap Z Z;
  frozen : gset Z;
  disconnections : list Z;
  connections : list Z;
  incoming : list Z;
  inbuf : gmap Z (list byte);
  calls : list call
}.

(** What one readiness poll finds: whether polling worked, the connections
    accepted (descriptor, listener of origin), the descriptors that reached
    EOF or an error, and the bytes that arrived. *)
Record POLL : Type := mkPOLL {
  poll_ok : bool;
  poll_accepted : list (Z * Z);
  poll_closed : list Z;
  poll_received : list (Z * list byte)
}.

Module Sockets.

Definition init : SOCKETS :=
  mkSOCKETS ∅ ∅ [] [] [] ∅ [].

Definition request (c : call) (sk : SOCKETS) : SOCKETS :=
  mkSOCKETS (listeners sk) (frozen sk) (disconnections sk) (connections sk)
    (incoming sk) (inbuf sk) (calls sk ++ [c]).

(** Modelled from the spec: [serve() -> bool] accepts new connections,
    reads the bytes of descriptors that are not frozen, and fills the three
    event queues; it returns [false] only when polling itself failed. *)
Definition serve (w : POLL) (sk : SOCKETS) : bool * SOCKETS :=
  if poll_ok w then
    let readable :=
      filter (λ r : Z * list byte, r.1 ∉ frozen sk) (poll_received w) in
    (true,
     mkSOCKETS
       (foldl (λ m a, <[a.1 := a.2]> m) (listeners sk) (poll_accepted w))
       (frozen sk)
       (disconnections sk ++ poll_closed w)
       (connections sk ++ (fst <$> poll_accepted w))
       (incoming sk ++ (fst <$> readable))
       (foldl (λ m r, <[r.1 := default [] (m !! r.1) ++ r.2]> m)
          (inbuf sk) readable)
       (calls sk))
  else (false, sk).

(** Modelled from the spec: [next_disconnection()] pops one descriptor of
    the disconnection queue, [NO_DESCRIPTOR] when it is empty.  The
    connection being gone, so is its frozen flag. *)
Definition next_disconnection (sk : SOCKETS) : Z * SOCKETS :=
  match disconnections sk with
  | [] => (NO_DESCRIPTOR, sk)
  | d :: q =>
      (d, mkSOCKETS (listeners sk) (frozen sk ∖ {[d]}) q (connections sk)
            (incoming sk) (inbuf sk) (calls sk))
  end.

(** Modelled from the spec: [next_connection()] pops the connection queue. *)
Definition next_connection (sk : SOCKETS) : Z * SOCKETS :=
  match connections sk with
  | [] => (NO_DESCRIPTOR, sk)
  | d :: q =>
      (d, mkSOCKETS (listeners sk) (frozen sk) (disconnections sk) q
            (incoming sk) (inbuf sk) (calls sk))
  end.

(** Modelled from the spec: [next_incoming()] pops the incoming queue. *)
Definition next_incoming (sk : SOCKETS) : Z * SOCKETS :=
  match incoming sk with
  | [] => (NO_DESCRIPTOR, sk)
  | d :: q =>
      (d, mkSOCKETS (listeners sk) (frozen sk) (disconnections sk)
            (connections sk) q (inbuf sk) (calls sk))
  end.

(** Modelled from the spec: [swap_incoming(d, buf)] hands the read buffer of
    [d] to the caller and keeps the caller's buffer in its place. *)
Definition swap_incoming (d : Z) (buf : list byte) (sk : SOCKETS)
  : list byte * SOCKETS :=
  (default [] (inbuf sk !! d),
   mkSOCKETS (listeners sk) (frozen sk) (disconnections sk) (connections sk)
     (incoming sk) (<[d := buf]> (inbuf sk)) (calls sk)).

(** Modelled from the spec: [get_listener(d)], the listener that accepted
    [d]. *)
Definition get_listener (d : Z) (sk : SOCKETS) : Z :=
  default NO_DESCRIPTOR (listeners sk !! d).

(** Modelled from the spec: [freeze(d)] and [unfreeze(d)] set and clear the
    frozen flag of [d]. *)
Definition freeze (d : Z) (sk : SOCKETS) : SOCKETS :=
  request (Freeze d)
    (mkSOCKETS (listeners sk) ({[d]} ∪ frozen sk) (disconnections sk)
       (connections sk) (incoming sk) (inbuf sk) (calls sk)).

Definition unfreeze (d : Z) (sk : SOCKETS) : SOCKETS :=
  request (Unfreeze d)
    (mkSOCKETS (listeners sk) (frozen sk ∖ {[d]}) (disconnections sk)
       (connections sk) (incoming sk) (inbuf sk) (calls sk)).

(** Modelled from the spec: [disconnect(d)] initiates the close of [d]; the
    disconnection event surfaces with a later poll, so the call changes
    nothing the engine observes.  On [NO_DESCRIPTOR] the multiplexer has
    nothing to close; the trace keeps the call all the same. *)
Definition disconnect (d : Z) (sk : SOCKETS) : SOCKETS :=
  request (Disconnect d) sk.

(** Modelled from the spec: [append_outgoing(d, buf)] queues bytes for
    transmission to [d]. *)
Definition append_outgoing (d : Z) (buf : list byte) (sk : SOCKETS)
  : SOCKETS :=
  request (AppendOutgoing d buf) sk.

(** [writef(d, "%lu\n", n)]: the decimal digits of [n] and a line feed. *)
Definition format_lu (n : N) : string :=
  pretty n +:+ String (Ascii.ascii_of_nat 10) EmptyString.

Definition writef_lu (d : Z) (n : N) (sk : SOCKETS) : SOCKETS :=
  request (Writef d (format_lu n)) sk.

End Sockets.


(** ** The state of [PROGRAM::run] *)

(** The fields of [OPTIONS] (options.h) the loop reads. *)
Record OPTIONS : Type := mkOPTIONS {
  supply_port : Z;
  demand_port : Z;
  driver_port : Z;
  idle_timeout : Z;
  driver_period : Z;
  verbose : bool;
  exit_flag : bool
}.

(** Lines written by [log], one constructor per format string. *)
Inductive log_line : Type :=
| LogListening (ports : list Z)
| LogSignal (sig : Z)
| LogServeError
| LogDisconnected (d : Z)
| LogNewConnection (d : Z)
| LogForbidden (line : Z)
| LogForwarded (size : nat) (from to : Z)
| LogTimedOut (d : Z).

(** The three listening descriptors, fixed before the loop starts. *)
Record LISTENERS : Type := mkLISTENERS {
  supply_descriptor : Z;
  demand_descriptor : Z;
  driver_descriptor : Z
}.

(** The locals of [run] that live across iterations, the multiplexer, the
    lines logged and the number of times the one-second timer was armed. *)
Record PROGRAM : Type := mkPROGRAM {
  status : Z;
  terminated : bool;
  timestamp_map : gmap Z Z;
  supply_map : gmap Z Z;
  demand_map : gmap Z Z;
  unmet_supply : gset Z;
  unmet_demand : gset Z;
  drivers : gset Z;
  sockets : SOCKETS;
  log : list log_line;
  timers : nat
}.

Definition set_status (v : Z) (p : PROGRAM) : PROGRAM :=
  mkPROGRAM v (terminated p) (timestamp_map p) (supply_map p) (demand_map p)
    (unmet_supply p) (unmet_demand p) (drivers p) (sockets p) (log p)
    (timers p).

Definition set_terminated (v : bool) (p : PROGRAM) : PROGRAM :=
  mkPROGRAM (status p) v (timestamp_map p) (supply_map p) (demand_map p)
    (unmet_supply p) (unmet_demand p) (drivers p) (sockets p) (log p)
    (timers p).

Definition set_timestamp_map (v : gmap Z Z) (p : PROGRAM) : PROGRAM :=
  mkPROGRAM (status p) (terminated p) v (supply_map p) (demand_map p)
    (unmet_supply p) (unmet_demand p) (drivers p) (sockets p) (log p)
    (timers p).

Definition set_supply_map (v : gmap Z Z) (p : PROGRAM) : PROGRAM :=
  mkPROGRAM (status p) (terminated p) (timestamp_map p) v (demand_map p)
    (unmet_supply p) (unmet_demand p) (drivers p) (sockets p) (log p)
    (timers p).

Definition set_demand_map (v : gmap Z Z) (p : PROGRAM) : PROGRAM :=
  mkPROGRAM (status p) (terminated p) (timestamp_map p) (supply_map p) v
    (unmet_supply p) (unmet_demand p) (drivers p) (sockets p) (log p)
    (timers p).

Definition set_unmet_supply (v : gset Z) (p : PROGRAM) : PROGRAM :=
  mkPROGRAM (status p) (terminated p) (timestamp_map p) (supply_map p)
    (demand_map p) v (unmet_demand p) (drivers p) (sockets p) (log p)
    (timers p).

Definition set_unmet_demand (v : gset Z) (p : PROGRAM) : PROGRAM :=
  mkPROGRAM (status p) (terminated p) (timestamp_map p) (supply_map p)
    (demand_map p) (unmet_supply p) v (drivers p) (sockets p) (log p)
    (timers p).

Definition set_drivers (v : gset Z) (p : PROGRAM) : PROGRAM :=
  mkPROGRAM (status p) (terminated p) (timestamp_map p) (supply_map p)
    (demand_map p) (unmet_supply p) (unmet_demand p) v (sockets p) (log p)
    (timers p).

Definition set_sockets (v : SOCKETS) (p : PROGRAM) : PROGRAM :=
  mkPROGRAM (status p) (terminated p) (timestamp_map p) (supply_map p)
    (demand_map p) (unmet_supply p) (unmet_demand p) (drivers p) v (log p)
    (timers p).

(** [log(fmt, ...)] *)
Definition write_log (l : log_line) (p : PROGRAM) : PROGRAM :=
  mkPROGRAM (status p) (terminated p) (timestamp_map p) (supply_map p)
    (demand_map p) (unmet_supply p) (unmet_demand p) (drivers p) (sockets p)
    (log p ++ [l]) (timers p).

(** [set_timer(USEC_PER_SEC)] *)
Definition set_timer (p : PROGRAM) : PROGRAM :=
  mkPROGRAM (status p) (terminated p) (timestamp_map p) (supply_map p)
    (demand_map p) (unmet_supply p) (unmet_demand p) (drivers p) (sockets p)
    (log p) (S (timers p)).

(** [sockets->f(...)] for a request [f] that returns nothing. *)
Definition on_sockets (f : SOCKETS → SOCKETS) (p : PROGRAM) : PROGRAM :=
  set_sockets (f (sockets p)) p.

(** [timestamp_map[d] = t] *)
Definition stamp (d t : Z) (p : PROGRAM) : PROGRAM :=
  set_timestamp_map (<[d := t]> (timestamp_map p)) p.

(** [m[k]] read on an [unordered_map<int, long long>]: a missing key is
    inserted with the value 0. *)
Definition index (m : gmap Z Z) (k : Z) : Z * gmap Z Z :=
  match m !! k with
  | Some v => (v, m)
  | None => (0, <[k := 0]> m)
  end.

(** What the outside world supplies to one iteration: the signals pending
    at its top, what the poll finds if [serve] is called, and the second
    read from the wall clock. *)
Record ENV : Type := mkENV {
  env_signals : list Z;
  env_poll : POLL;
  env_timestamp : Z
}.

(** ** The body of the loop, step by step *)

Section Engine.

Variable options : OPTIONS.
Variable L : LISTENERS.

(** Lines 89-112: the signals pending at the top of the iteration, in the
    order [signals->next()] returns them; 0 ends the intake. *)
Fixpoint signal_intake (pending : list Z) (alarmed : bool) (p : PROGRAM)
  : bool * PROGRAM :=
  match pending with
  | [] => (alarmed, p)
  | sig :: rest =>
      if decide (sig = 0) then (alarmed, p)
      else if decide (sig = SIGALRM) then signal_intake rest true p
      else if decide (sig = SIGINT ∨ sig = SIGTERM ∨ sig = SIGQUIT) then
        signal_intake rest alarmed
          (write_log (LogSignal sig) (set_terminated true p))
      else signal_intake rest alarmed (write_log (LogSignal sig) p)
  end.

(** Lines 119-121. *)
Definition disconnect_listeners (p : PROGRAM) : PROGRAM :=
  on_sockets (Sockets.disconnect (driver_descriptor L))
    (on_sockets (Sockets.disconnect (supply_descriptor L))
       (on_sockets (Sockets.disconnect (demand_descriptor L)) p)).

(** Lines 136-174: the body of the disconnection loop for descriptor [d]. *)
Definition on_disconnection (d : Z) (p : PROGRAM) : PROGRAM :=
  let p := write_log (LogDisconnected d) p in
  let p := set_timestamp_map (delete d (timestamp_map p)) p in
  if decide (d ∈ drivers p) then set_drivers (drivers p ∖ {[d]}) p
  else
    let '(other_descriptor, p) :=
      match supply_map p !! d with
      | Some o => (o, set_supply_map (delete d (supply_map p)) p)
      | None =>
          match demand_map p !! d with
          | Some o => (o, set_demand_map (delete d (demand_map p)) p)
          | None =>
              (NO_DESCRIPTOR,
               set_unmet_demand (unmet_demand p ∖ {[d]})
                 (set_unmet_supply (unmet_supply p ∖ {[d]}) p))
          end
      end in
    if decide (other_descriptor = NO_DESCRIPTOR) then p
    else
      let p :=
        match supply_map p !! other_descriptor with
        | Some _ =>
            set_supply_map
              (<[other_descriptor := NO_DESCRIPTOR]> (supply_map p)) p
        | None =>
            match demand_map p !! other_descriptor with
            | Some _ =>
                set_demand_map
                  (<[other_descriptor := NO_DESCRIPTOR]> (demand_map p)) p
            | None => p
            end
        end in
      on_sockets (Sockets.disconnect other_descriptor) p.

(** Lines 135-175: [while ((d = next_disconnection()) != NO_DESCRIPTOR)].
    The body never adds to the queue, so the loop runs along the queue as
    it stands when the loop is entered. *)
Fixpoint drain_disconnections (queue : list Z) (p : PROGRAM) : PROGRAM :=
  let '(d, sk) := Sockets.next_disconnection (sockets p) in
  let p := set_sockets sk p in
  match queue with
  | [] => p
  | _ :: queue' =>
      if decide (d = NO_DESCRIPTOR) then p
      else drain_disconnections queue' (on_disconnection d p)
  end.

(** Lines 180-229: the body of the new-connection loop for descriptor [d];
    [new_demand] is the counter of line 177. *)
Definition on_connection (timestamp : Z) (d : Z) (new_demand : N)
    (p : PROGRAM) : N * PROGRAM :=
  let p := write_log (LogNewConnection d) p in
  let p := stamp d timestamp p in
  let listener := Sockets.get_listener d (sockets p) in
  if decide (listener = supply_descriptor L) then
    match elements (unmet_demand p) with
    | [] =>
        (new_demand,
         on_sockets (Sockets.freeze d)
           (set_unmet_supply ({[d]} ∪ unmet_supply p) p))
    | other_descriptor :: _ =>
        let p := set_unmet_demand (unmet_demand p ∖ {[other_descriptor]}) p in
        let p := set_supply_map (<[d := other_descriptor]> (supply_map p)) p in
        let p := set_demand_map (<[other_descriptor := d]> (demand_map p)) p in
        let p := on_sockets (Sockets.unfreeze other_descriptor) p in
        (new_demand, stamp other_descriptor timestamp p)
    end
  else if decide (listener = demand_descriptor L) then
    match elements (unmet_supply p) with
    | [] =>
        (wrap_size_t (new_demand + 1),
         on_sockets (Sockets.freeze d)
           (set_unmet_demand ({[d]} ∪ unmet_demand p) p))
    | other_descriptor :: _ =>
        let p := set_unmet_supply (unmet_supply p ∖ {[other_descriptor]}) p in
        let p := set_demand_map (<[d := other_descriptor]> (demand_map p)) p in
        let p := set_supply_map (<[other_descriptor := d]> (supply_map p)) p in
        let p := on_sockets (Sockets.unfreeze other_descriptor) p in
        (new_demand, stamp other_descriptor timestamp p)
    end
  else if decide (listener = driver_descriptor L
                  ∧ driver_descriptor L ≠ NO_DESCRIPTOR) then
    let p := set_drivers ({[d]} ∪ drivers p) p in
    let p := stamp d (wrap64 (timestamp + 1)) p in
    (new_demand,
     on_sockets (Sockets.writef_lu d (N.of_nat (size (unmet_demand p)))) p)
  else (new_demand, write_log (LogForbidden 229) p).

(** Lines 179-230: [while ((d = next_connection()) != NO_DESCRIPTOR)]. *)
Fixpoint drain_connections (timestamp : Z) (queue : list Z) (new_demand : N)
    (p : PROGRAM) : N * PROGRAM :=
  let '(d, sk) := Sockets.next_connection (sockets p) in
  let p := set_sockets sk p in
  match queue with
  | [] => (new_demand, p)
  | _ :: queue' =>
      if decide (d = NO_DESCRIPTOR) then (new_demand, p)
      else
        let '(new_demand, p) := on_connection timestamp d new_demand p in
        drain_connections timestamp queue' new_demand p
  end.

(** Lines 234-256: the body of [for (int driver : drivers)]. *)
Definition publish_to (timestamp : Z) (new_demand : N) (driver : Z)
    (p : PROGRAM) : PROGRAM :=
  let '(last, m) := index (timestamp_map p) driver in
  let p := set_timestamp_map m p in
  if decide (last > timestamp) then stamp driver timestamp p
  else if decide (new_demand = 0%N) then
    if decide (driver_period options = 0
               ∨ wrap64 (timestamp - last) < driver_period options) then p
    else
      stamp driver timestamp
        (on_sockets
           (Sockets.writef_lu driver (N.of_nat (size (unmet_demand p)))) p)
  else
    stamp driver timestamp
      (on_sockets (Sockets.writef_lu driver new_demand) p).

(** Lines 232-258: the drivers are visited in the iteration order of the
    set. *)
Definition publish (timestamp : Z) (new_demand : N) (alarmed : bool)
    (p : PROGRAM) : PROGRAM :=
  if decide (new_demand ≠ 0%N ∨ alarmed = true) then
    foldl (λ p driver, publish_to timestamp new_demand driver p) p
      (elements (drivers p))
  else p.

(** Lines 261-294: the body of the incoming loop for descriptor [d]; the
    local [buffer] is empty whenever the loop body starts. *)
Definition on_incoming (timestamp : Z) (d : Z) (p : PROGRAM) : PROGRAM :=
  let '(buffer, sk) := Sockets.swap_incoming d [] (sockets p) in
  let p := set_sockets sk p in
  let p :=
    if decide (d ∈ drivers p) then p
    else
      let forward_to :=
        match supply_map p !! d with
        | Some o => o
        | None =>
            match demand_map p !! d with
            | Some o => o
            | None => NO_DESCRIPTOR
            end
        end in
      if decide (forward_to = NO_DESCRIPTOR) then
        write_log (LogForbidden 274) p
      else
        let p :=
          if verbose options then
            write_log (LogForwarded (length buffer) d forward_to) p
          else p in
        stamp forward_to timestamp
          (on_sockets (Sockets.append_outgoing forward_to buffer) p) in
  stamp d timestamp p.

(** Lines 260-295: [while ((d = next_incoming()) != NO_DESCRIPTOR)]. *)
Fixpoint drain_incoming (timestamp : Z) (queue : list Z) (p : PROGRAM)
  : PROGRAM :=
  let '(d, sk) := Sockets.next_incoming (sockets p) in
  let p := set_sockets sk p in
  match queue with
  | [] => p
  | _ :: queue' =>
      if decide (d = NO_DESCRIPTOR) then p
      else drain_incoming timestamp queue' (on_incoming timestamp d p)
  end.

(** Lines 301-312: the body of [for (const auto &p : timestamp_map)]. *)
Definition reap_one (timestamp : Z) (entry : Z * Z) (p : PROGRAM)
  : PROGRAM :=
  if decide (wrap64 (timestamp - entry.2) >= idle_timeout options) then
    let p := if verbose options then write_log (LogTimedOut entry.1) p
             else p in
    on_sockets (Sockets.disconnect entry.1) p
  else p.

(** Lines 297-314. *)
Definition idle_reap (timestamp : Z) (alarmed : bool) (p : PROGRAM)
  : PROGRAM :=
  if decide (idle_timeout options > 0 ∧ alarmed = true) then
    foldl (λ p entry, reap_one timestamp entry p) p
      (map_to_list (timestamp_map p))
  else p.

(** Lines 126-130. *)
Definition poll (alarmed : bool) (w : POLL) (p : PROGRAM) : PROGRAM :=
  if alarmed then p
  else
    let '(ok, sk) := Sockets.serve w (sockets p) in
    let p := set_sockets sk p in
    if ok then p
    else set_terminated true
           (set_status EXIT_FAILURE (write_log LogServeError p)).

(** Lines 132-314: the iteration from the poll on. *)
Definition serve_and_dispatch (alarmed : bool) (e : ENV) (p : PROGRAM)
  : PROGRAM :=
  let p := poll alarmed (env_poll e) p in
  let timestamp := env_timestamp e in
  let p := drain_disconnections (disconnections (sockets p)) p in
  let '(new_demand, p) :=
    drain_connections timestamp (connections (sockets p)) 0%N p in
  let p := publish timestamp new_demand alarmed p in
  let p := drain_incoming timestamp (incoming (sockets p)) p in
  idle_reap timestamp alarmed p.

(** Lines 86-315: one pass through the body of the [do ... while].  The
    [continue] of line 123 ends the pass. *)
Definition iteration (e : ENV) (p : PROGRAM) : PROGRAM :=
  let '(alarmed, p) := signal_intake (env_signals e) false p in
  let p := if alarmed then set_timer p else p in
  if terminated p then disconnect_listeners p
  else serve_and_dispatch alarmed e p.

(** Lines 85-316: [do { ... } while (!terminated)].  The loop consumes one
    [ENV] per pass; it returns the state, the environments left over and
    whether the loop was left ([false]: the environments ran out with the
    loop still running). *)
Fixpoint run_loop (envs : list ENV) (p : PROGRAM)
  : PROGRAM * list ENV * bool :=
  match envs with
  | [] => (p, [], false)
  | e :: envs' =>
      let p := iteration e p in
      if terminated p then (p, envs', true) else run_loop envs' p
  end.

End Engine.

(** ** [PROGRAM::run] *)

(** The state in which [run] starts: nothing tracked, nothing queued. *)
Definition blank : PROGRAM :=
  mkPROGRAM EXIT_SUCCESS false ∅ ∅ ∅ ∅ ∅ ∅ Sockets.init [] 0.

(** Lines 33-47: the listening descriptors, from what the three calls of
    [sockets->listen] return; the driver port is only opened when it is set. *)
Definition listen_all (options : OPTIONS) (listened : LISTENERS)
  : LISTENERS :=
  mkLISTENERS (supply_descriptor listened) (demand_descriptor listened)
    (if decide (driver_port options = 0) then NO_DESCRIPTOR
     else driver_descriptor listened).

(** Lines 49-83: the state in which the loop is entered. *)
Definition startup (options : OPTIONS) (L : LISTENERS) : PROGRAM :=
  let p :=
    if decide (supply_descriptor L = NO_DESCRIPTOR
               ∨ demand_descriptor L = NO_DESCRIPTOR) then
      set_status EXIT_FAILURE (set_terminated true blank)
    else
      write_log
        (LogListening
           (if decide (driver_descriptor L = NO_DESCRIPTOR) then
              [supply_port options; demand_port options]
            else
              [supply_port options; demand_port options;
               driver_port options]))
        (set_status EXIT_SUCCESS blank) in
  set_timer p.

(** Lines 23-319.  [listened] holds what [sockets->listen] returns for the
    three ports. *)
Definition run (options : OPTIONS) (listened : LISTENERS) (envs : list ENV)
  : PROGRAM * list ENV * bool :=
  if exit_flag options then (set_status EXIT_SUCCESS blank, envs, true)
  else
    let L := listen_all options listened in
    run_loop options L envs (startup options L).

(** ** The pairing tables *)

(** The descriptors the engine holds in one of its five pairing tables. *)
Definition tracked (p : PROGRAM) : gset Z :=
  dom (supply_map p) ∪ dom (demand_map p) ∪ unmet_supply p ∪ unmet_demand p
  ∪ drivers p.

(** No descriptor sits in two tables. *)
Definition separate (p : PROGRAM) : Prop :=
  dom (supply_map p) ## dom (demand_map p) ∪ unmet_supply p ∪ unmet_demand p
                        ∪ drivers p
  ∧ dom (demand_map p) ## unmet_supply p ∪ unmet_demand p ∪ drivers p
  ∧ unmet_supply p ## unmet_demand p ∪ drivers p
  ∧ unmet_demand p ## drivers p.

(** Symmetry of the two peer maps (P1). *)
Definition symmetric (p : PROGRAM) : Prop :=
  (∀ s d : Z, supply_map p !! s = Some d → d ≠ NO_DESCRIPTOR →
              demand_map p !! d = Some s)
  ∧ (∀ d s : Z, demand_map p !! d = Some s → s ≠ NO_DESCRIPTOR →
                supply_map p !! s = Some d).

(** The tables are consistent: separate, symmetric, and [NO_DESCRIPTOR] is in
    none of them. *)
Definition consistent (p : PROGRAM) : Prop :=
  separate p ∧ symmetric p ∧ NO_DESCRIPTOR ∉ tracked p.

(** The multiplexer has frozen exactly the waiting descriptors (P2). *)
Definition frozen_unmet (p : PROGRAM) : Prop :=
  frozen (sockets p) = unmet_supply p ∪ unmet_demand p.

(** No event is left in a queue of the multiplexer. *)
Definition drained (sk : SOCKETS) : Prop :=
  disconnections sk = [] ∧ connections sk = [] ∧ incoming sk = [].


(** A poll the multiplexer can report to an engine in state [p]: no event
    carries [NO_DESCRIPTOR], and a descriptor is handed out for a new
    connection only when the engine does not track it, or when its previous
    connection is reported closed by the same poll. *)
Definition orderly (p : PROGRAM) (w : POLL) : Prop :=
  (NO_DESCRIPTOR ∉ poll_closed w)
  ∧ (NO_DESCRIPTOR ∉ fst <$> poll_accepted w)
  ∧ (NO_DESCRIPTOR ∉ fst <$> poll_received w)
  ∧ NoDup (fst <$> poll_accepted w)
  ∧ ∀ d : Z, d ∈ (fst <$> poll_accepted w) → d ∉ tracked p ∨ d ∈ poll_closed w.

(** The states of the loop at the end of an iteration, for a multiplexer that
    reports orderly polls. *)
Inductive reachable (options : OPTIONS) (L : LISTENERS) : PROGRAM → Prop :=
| reachable_startup : reachable options L (startup options L)
| reachable_iteration (e : ENV) (p : PROGRAM) :
    reachable options L p →
    orderly p (env_poll e) →
    reachable options L (iteration options L e p).

(** The pairing tables and the frozen set, the part of the state the table
    invariants read. *)
Definition tables (p : PROGRAM)
  : gmap Z Z * gmap Z Z * gset Z * gset Z * gset Z * gset Z :=
  (supply_map p, demand_map p, unmet_supply p, unmet_demand p, drivers p,
   frozen (sockets p)).

(** The three event queues of the multiplexer. *)
Definition queues (sk : SOCKETS) : list Z * list Z * list Z :=
  (disconnections sk, connections sk, incoming sk).

(** What holds of the engine between two iterations. *)
Definition invariant (p : PROGRAM) : Prop :=
  consistent p ∧ frozen_unmet p ∧ drained (sockets p).

(** ** Example runs *)

(** Ports 4000, 5000 and 6000, an idle timeout of 60 seconds, a driver period
    of 10 seconds. *)
Definition example_options : OPTIONS :=
  mkOPTIONS 4000 5000 6000 60 10 false false.

(** The descriptors [listen] returns for the three ports. *)
Definition example_listeners : LISTENERS := mkLISTENERS 3 4 5.

(** An iteration at second [t] whose poll accepts the connections
    [accepted] and finds nothing else. *)
Definition accepting (t : Z) (accepted : list (Z * Z)) : ENV :=
  mkENV [] (mkPOLL true accepted [] []) t.

(** Two iterations: a supplier (descriptor 7) connects and waits; then two
    demanders (8 and 9) connect, of which one is paired with 7 and the other
    waits. *)
Definition example_pairing : PROGRAM :=
  iteration example_options example_listeners
    (accepting 101 [(8, 4); (9, 4)])
    (iteration example_options example_listeners (accepting 100 [(7, 3)])
       (startup example_options example_listeners)).

(** The state in which the new-connection loop meets descriptor 7, accepted
    on the driver listener. *)
Definition example_driver_arrival : PROGRAM :=
  poll false (mkPOLL true [(7, 5)] [] [])
    (startup example_options example_listeners).

(** The state after a driver (descriptor 7) connected at second 100 in an
    iteration without publication pass, and the poll of the next iteration,
    which reads two bytes from it. *)
Definition example_driver : PROGRAM :=
  iteration example_options example_listeners (accepting 100 [(7, 5)])
    (startup example_options example_listeners).

Definition example_driver_talks : PROGRAM :=
  poll false (mkPOLL true [] [] [(7, [x68; x69])]) example_driver.

(** The state in which the new-connection loop meets descriptor 7, which
    the multiplexer attributes to a listener (99) that is none of the
    three. *)
Definition example_stray_arrival : PROGRAM :=
  poll false (mkPOLL true [(7, 99)] [] [])
    (startup example_options example_listeners).

(** A run of three polls: a supplier (descriptor 7) connects and waits;
    SIGTERM is pending at the top of the second iteration; the third poll
    would report the disconnection of 7. *)
Definition example_sigterm : list ENV :=
  [accepting 100 [(7, 3)];
   mkENV [SIGTERM] (mkPOLL true [] [] []) 101;
   mkENV [] (mkPOLL true [] [7] []) 102].

(** A run of two polls, the first of which fails. *)
Definition example_serve_fails : list ENV :=
  [mkENV [] (mkPOLL false [] [] []) 100;
   mkENV [] (mkPOLL true [] [] []) 101].

(** The iteration after [example_driver], in the same second: a demander
    (descriptor 8) connects and waits. *)
Definition example_demand_same_second : PROGRAM :=
  iteration example_options example_listeners (accepting 100 [(8, 4)])
    example_driver.

(** The same iteration one second later. *)
Definition example_demand_next_second : PROGRAM :=
  iteration example_options example_listeners (accepting 101 [(8, 4)])
    example_driver.

(** The control state of the loop: exit status, termination flag, and the
    number of times the timer was armed. *)
Definition control (p : PROGRAM) : Z * bool * nat :=
  (status p, terminated p, timers p).

(** The peer the incoming loop forwards the bytes of [d] to (lines
    264-271). *)
Definition forward_to (d : Z) (p : PROGRAM) : Z :=
  match supply_map p !! d with
  | Some o => o
  | None => default NO_DESCRIPTOR (demand_map p !! d)
  end.

(** The state in which the incoming loop meets descriptor 7, paired with 8,
    with three bytes read from it. *)
Definition example_talk : PROGRAM :=
  poll false (mkPOLL true [] [] [(7, [x61; x62; x63])]) example_pairing.

(** The state in which the new-connection loop meets supplier 10 while
    demander 9 waits. *)
Definition example_supply_arrival : PROGRAM :=
  poll false (mkPOLL true [(10, 3)] [] []) example_pairing.

(** The state in which the new-connection loop meets demander 8 while
    supplier 7 waits. *)
Definition example_demand_arrival : PROGRAM :=
  poll false (mkPOLL true [(8, 4)] [] [])
    (iteration example_options example_listeners (accepting 100 [(7, 3)])
       (startup example_options example_listeners)).

(** ** The interval timer and the log buffer *)

(** The fields of [struct itimerval] that [set_timer] writes. *)
Record ITIMERVAL : Type := mkITIMERVAL {
  it_value_sec : Z;
  it_value_usec : Z;
  it_interval_sec : Z;
  it_interval_usec : Z
}.

Definition USEC_PER_SEC : Z := 1000000.

Module Timer.

(** Lines 527-534: the timer value [set_timer(usec)] hands to
    [setitimer]. *)
Definition set_timer (usec : Z) : ITIMERVAL :=
  mkITIMERVAL (usec / 1000000) (usec mod 1000000) 0 0.

End Timer.

(** How the buffer loop of [print_log] and [log] ends: with the text
    formatted in a buffer of [size] characters, or with the line dropped
    because [realloc] failed. *)
Inductive FORMATTED : Type :=
| Formatted (size : Z) (passes : nat)
| Dropped
| Unfinished.

(** Lines 405-425 and 465-485.  [buffered] is what [vsnprintf] returns for
    the format and arguments at hand: the length of the formatted text, or a
    negative value on an output error; [realloc] tells whether a
    reallocation to the given size succeeds; [passes] counts the calls of
    [vsnprintf] made so far. *)
Fixpoint format_loop (fuel : nat) (buffered : Z) (realloc : Z → bool)
    (size : Z) (passes : nat) : FORMATTED :=
  match fuel with
  | O => Unfinished
  | S fuel' =>
      if decide (buffered > -1 ∧ buffered < size) then
        Formatted size (S passes)
      else
        let size := if decide (buffered > -1) then buffered + 1
                    else size * 2 in
        if realloc size then
          format_loop fuel' buffered realloc size (S passes)
        else Dropped
  end.

(** Every descriptor in a table has an activity stamp. *)
Definition stamped (p : PROGRAM) : Prop :=
  tracked p ⊆ dom (timestamp_map p).

(** Lines 126-295: the iteration from the poll to the end of the incoming
    loop, that is, up to the idle reaper. *)
Definition dispatch (options : OPTIONS) (L : LISTENERS) (alarmed : bool)
    (e : ENV) (p : PROGRAM) : PROGRAM :=
  let p := poll alarmed (env_poll e) p in
  let timestamp := env_timestamp e in
  let p := drain_disconnections (disconnections (sockets p)) p in
  let '(new_demand, p) :=
    drain_connections L timestamp (connections (sockets p)) 0%N p in
  let p := publish options timestamp new_demand alarmed p in
  drain_incoming options timestamp (incoming (sockets p)) p.

(** An iteration at second 161 with an alarm pending, and one with an alarm
    and SIGTERM pending. *)
Definition example_alarm : ENV :=
  mkENV [SIGALRM] (mkPOLL true [] [] []) 161.

Definition example_alarm_sigterm : ENV :=
  mkENV [SIGALRM; SIGTERM] (mkPOLL true [] [] []) 161.

(** A pair and its teardown: supplier 7 and demander 8 connect and are
    paired; the poll at second 102 reports the disconnection of 7; the poll
    at second 103 reports the disconnection of 8 together with one byte read
    from 8 before it closed. *)
Definition example_pair : PROGRAM :=
  iteration example_options example_listeners (accepting 101 [(8, 4)])
    (iteration example_options example_listeners (accepting 100 [(7, 3)])
       (startup example_options example_listeners)).

Definition example_first_closed : PROGRAM :=
  iteration example_options example_listeners
    (mkENV [] (mkPOLL true [] [7] []) 102) example_pair.

Definition example_both_closed : PROGRAM :=
  iteration example_options example_listeners
    (mkENV [] (mkPOLL true [] [8] [(8, [x68])]) 103) example_first_closed.

(** * Properties *)

(** ** Steps that leave the pairing tables alone *)

Ltac unfold_setters :=
  unfold on_sockets, stamp, write_log, set_timer, set_status, set_terminated,
    set_timestamp_map, set_supply_map, set_demand_map, set_unmet_supply,
    set_unmet_demand, set_drivers, set_sockets in *.

Ltac unfold_sockets :=
  unfold Sockets.disconnect, Sockets.freeze, Sockets.unfreeze,
    Sockets.writef_lu, Sockets.append_outgoing, Sockets.swap_incoming,
    Sockets.request in *.

Lemma tables_inv (p q : PROGRAM) :
  tables p = tables q →
  supply_map p = supply_map q ∧ demand_map p = demand_map q
  ∧ unmet_supply p = unmet_supply q ∧ unmet_demand p = unmet_demand q
  ∧ drivers p = drivers q ∧ frozen (sockets p) = frozen (sockets q).
Proof. unfold tables. intros H. injection H as -> -> -> -> -> ->. done. Qed.

Lemma tables_tracked (p q : PROGRAM) :
  tables p = tables q → tracked p = tracked q.
Proof.
  intros (HS & HD & HUS & HUD & HDR & _)%tables_inv.
  unfold tracked. by rewrite HS, HD, HUS, HUD, HDR.
Qed.

Lemma tables_consistent (p q : PROGRAM) :
  tables p = tables q → consistent p → consistent q.
Proof.
  intros H. pose proof (tables_tracked _ _ H) as HT.
  apply tables_inv in H as (HS & HD & HUS & HUD & HDR & _).
  unfold consistent, separate, symmetric.
  by rewrite HT, HS, HD, HUS, HUD, HDR.
Qed.

Lemma tables_frozen_unmet (p q : PROGRAM) :
  tables p = tables q → frozen_unmet p → frozen_unmet q.
Proof.
  intros (_ & _ & HUS & HUD & _ & HF)%tables_inv.
  unfold frozen_unmet. by rewrite HUS, HUD, HF.
Qed.


Section Frames.

Variable options : OPTIONS.
Variable L : LISTENERS.

Lemma disconnect_frozen (d : Z) (sk : SOCKETS) :
  frozen (Sockets.disconnect d sk) = frozen sk.
Proof. reflexivity. Qed.

Lemma signal_intake_tables (pending : list Z) (alarmed : bool)
    (p : PROGRAM) :
  tables (signal_intake pending alarmed p).2 = tables p.
Proof.
  revert alarmed p. induction pending as [|sig rest IH]; intros; [done|].
  simpl. repeat case_decide; try done; by rewrite IH.
Qed.

Lemma signal_intake_sockets (pending : list Z) (alarmed : bool)
    (p : PROGRAM) :
  sockets (signal_intake pending alarmed p).2 = sockets p.
Proof.
  revert alarmed p. induction pending as [|sig rest IH]; intros; [done|].
  simpl. repeat case_decide; try done; by rewrite IH.
Qed.

Lemma disconnect_listeners_tables (p : PROGRAM) :
  tables (disconnect_listeners L p) = tables p.
Proof.
  unfold disconnect_listeners, tables. unfold_setters. simpl.
  by rewrite ?disconnect_frozen.
Qed.

Lemma publish_to_tables (timestamp : Z) (new_demand : N) (driver : Z)
    (p : PROGRAM) :
  tables (publish_to options timestamp new_demand driver p) = tables p.
Proof.
  unfold publish_to. destruct (index _ _) as [last m].
  repeat case_decide; done.
Qed.

Lemma publish_tables (timestamp : Z) (new_demand : N) (alarmed : bool)
    (p : PROGRAM) :
  tables (publish options timestamp new_demand alarmed p) = tables p.
Proof.
  unfold publish. case_decide; [|done].
  generalize (elements (drivers p)). intros l. revert p.
  induction l as [|d l IH]; intros p; [done|].
  simpl. by rewrite IH, publish_to_tables.
Qed.

Lemma on_incoming_tables (timestamp d : Z) (p : PROGRAM) :
  tables (on_incoming options timestamp d p) = tables p.
Proof.
  unfold on_incoming. simpl. repeat case_decide; try done.
  by destruct (verbose options).
Qed.

Lemma drain_incoming_tables (timestamp : Z) (queue : list Z)
    (p : PROGRAM) :
  tables (drain_incoming options timestamp queue p) = tables p.
Proof.
  revert p. induction queue as [|d0 queue IH]; intros p; simpl.
  - unfold Sockets.next_incoming. by destruct (incoming (sockets p)).
  - unfold Sockets.next_incoming.
    destruct (incoming (sockets p)) as [|d q] eqn:E; simpl.
    + done.
    + case_decide; [done|]. by rewrite IH, on_incoming_tables.
Qed.

Lemma reap_one_tables (timestamp : Z) (entry : Z * Z) (p : PROGRAM) :
  tables (reap_one options timestamp entry p) = tables p.
Proof.
  unfold reap_one. case_decide; [|done].
  destruct (verbose options); unfold tables; unfold_setters; simpl;
    by rewrite ?disconnect_frozen.
Qed.

Lemma idle_reap_tables (timestamp : Z) (alarmed : bool) (p : PROGRAM) :
  tables (idle_reap options timestamp alarmed p) = tables p.
Proof.
  unfold idle_reap. case_decide; [|done].
  generalize (map_to_list (timestamp_map p)). intros l. revert p.
  induction l as [|e l IH]; intros p; [done|].
  simpl. by rewrite IH, reap_one_tables.
Qed.

Lemma poll_tables (alarmed : bool) (w : POLL) (p : PROGRAM) :
  tables (poll alarmed w p) = tables p.
Proof.
  unfold poll, Sockets.serve. destruct alarmed; [done|].
  by destruct (poll_ok w).
Qed.

End Frames.

(** ** The two steps that change the pairing tables *)

#[local] Set Warnings "-clear-no-such-hyp".

Ltac step_case :=
  match goal with
  | |- context [decide ?P] => destruct (decide P)
  | |- context [match ?x with _ => _ end] => destruct x eqn:?
  | H : context [match ?x with _ => _ end] |- _ => destruct x eqn:?
  end.

Ltac step_cases := repeat step_case; simplify_eq/=.

Ltac lookups_to_dom :=
  repeat match goal with
         | H : _ !! _ = Some _ |- _ => apply (elem_of_dom_2 (D:=gset Z)) in H
         | H : _ !! _ = None |- _ => apply (not_elem_of_dom (D:=gset Z)) in H
         end.

Ltac learn H :=
  let T := type of H in
  lazymatch goal with
  | _ : T |- _ => fail
  | _ => pose proof H
  end.

(** Every peer entry met in the context is followed to its reverse entry. *)
Ltac follow_peers H1 H2 :=
  repeat match goal with
         | H : supply_map _ !! ?s = Some ?x, Hne : ?x ≠ NO_DESCRIPTOR |- _ =>
             learn (H1 s x H Hne)
         | H : demand_map _ !! ?s = Some ?x, Hne : ?x ≠ NO_DESCRIPTOR |- _ =>
             learn (H2 s x H Hne)
         end.

Ltac map_lookups :=
  rewrite ?lookup_insert, ?lookup_delete in *;
  repeat case_decide; simplify_eq.

Ltac elements_to_set :=
  repeat match goal with
         | H : elements ?X = ?o :: _ |- _ =>
             assert (o ∈ X) by (apply elem_of_elements; rewrite H; left);
             clear H
         | H : elements ?X = [] |- _ =>
             apply elements_empty_inv, leibniz_equiv in H
         end.

Section Steps.

Variable options : OPTIONS.
Variable L : LISTENERS.

Lemma disconnect_queues (d : Z) (sk : SOCKETS) :
  queues (Sockets.disconnect d sk) = queues sk.
Proof. reflexivity. Qed.

Lemma on_disconnection_queues (d : Z) (p : PROGRAM) :
  queues (sockets (on_disconnection d p)) = queues (sockets p).
Proof.
  unfold on_disconnection. cbv zeta. step_cases; try done.
  all: by rewrite ?disconnect_queues.
Qed.

Lemma on_disconnection_frozen (d : Z) (p : PROGRAM) :
  frozen (sockets (on_disconnection d p)) = frozen (sockets p).
Proof.
  unfold on_disconnection. cbv zeta. step_cases; try done.
  all: by rewrite ?disconnect_frozen.
Qed.



Lemma on_disconnection_tracked (d : Z) (p : PROGRAM) :
  separate p → tracked (on_disconnection d p) ⊆ tracked p ∖ {[d]}.
Proof.
  unfold separate, tracked, on_disconnection. intros Hsep. cbv zeta.
  step_cases; lookups_to_dom; set_solver.
Qed.

Lemma on_disconnection_separate (d : Z) (p : PROGRAM) :
  separate p → separate (on_disconnection d p).
Proof.
  unfold separate, on_disconnection. intros Hsep. cbv zeta.
  step_cases; lookups_to_dom; set_solver.
Qed.

Lemma on_disconnection_unmet (d : Z) (p : PROGRAM) :
  separate p →
  unmet_supply (on_disconnection d p) ∪ unmet_demand (on_disconnection d p)
  = (unmet_supply p ∪ unmet_demand p) ∖ {[d]}.
Proof.
  unfold separate, on_disconnection. intros Hsep. cbv zeta.
  step_cases; lookups_to_dom; set_solver.
Qed.

Lemma on_disconnection_symmetric (d : Z) (p : PROGRAM) :
  consistent p → d ≠ NO_DESCRIPTOR → symmetric (on_disconnection d p).
Proof.
  unfold consistent, separate, tracked, symmetric, on_disconnection.
  intros (Hsep & [H1 H2] & HN) Hd. cbv zeta.
  step_cases.
  all: split; intros ????; map_lookups; eauto.
  all: exfalso; follow_peers H1 H2; simplify_eq.
  all: clear H1 H2; lookups_to_dom; set_solver.
Qed.

Lemma on_disconnection_consistent (d : Z) (p : PROGRAM) :
  consistent p → d ≠ NO_DESCRIPTOR → consistent (on_disconnection d p).
Proof.
  intros Hp Hd. split; [|split].
  - apply on_disconnection_separate, Hp.
  - by apply on_disconnection_symmetric.
  - destruct Hp as (Hsep & _ & HN).
    pose proof (on_disconnection_tracked d p Hsep). set_solver.
Qed.


Lemma on_connection_queues (timestamp d : Z) (new_demand : N)
    (p : PROGRAM) :
  queues (sockets (on_connection L timestamp d new_demand p).2)
  = queues (sockets p).
Proof. unfold on_connection. cbv zeta. by step_cases. Qed.

Lemma on_connection_tracked (timestamp d : Z) (new_demand : N)
    (p : PROGRAM) :
  tracked (on_connection L timestamp d new_demand p).2
  ⊆ tracked p ∪ {[d]}.
Proof.
  unfold tracked, on_connection. cbv zeta.
  step_cases; elements_to_set; set_solver.
Qed.

Lemma on_connection_separate (timestamp d : Z) (new_demand : N)
    (p : PROGRAM) :
  separate p → d ∉ tracked p →
  separate (on_connection L timestamp d new_demand p).2.
Proof.
  unfold separate, tracked, on_connection. intros Hsep Hd. cbv zeta.
  step_cases; elements_to_set; set_solver.
Qed.

Lemma on_connection_frozen_unmet (timestamp d : Z) (new_demand : N)
    (p : PROGRAM) :
  frozen_unmet p → separate p → d ∉ tracked p →
  frozen_unmet (on_connection L timestamp d new_demand p).2.
Proof.
  unfold frozen_unmet, separate, tracked, on_connection.
  intros Hf Hsep Hd. cbv zeta.
  step_cases; elements_to_set; rewrite ?Hf; set_solver.
Qed.

Lemma on_connection_symmetric (timestamp d : Z) (new_demand : N)
    (p : PROGRAM) :
  consistent p → d ≠ NO_DESCRIPTOR → d ∉ tracked p →
  symmetric (on_connection L timestamp d new_demand p).2.
Proof.
  unfold consistent, separate, tracked, symmetric, on_connection.
  intros (Hsep & [H1 H2] & HN) Hd Hfresh. cbv zeta.
  step_cases.
  all: split; intros ????; map_lookups; eauto.
  all: exfalso; follow_peers H1 H2; simplify_eq.
  all: clear H1 H2; elements_to_set; lookups_to_dom; set_solver.
Qed.


Lemma on_connection_consistent (timestamp d : Z) (new_demand : N)
    (p : PROGRAM) :
  consistent p → d ≠ NO_DESCRIPTOR → d ∉ tracked p →
  consistent (on_connection L timestamp d new_demand p).2.
Proof.
  intros Hp Hd Hfresh. split; [|split].
  - apply on_connection_separate; [apply Hp|done].
  - by apply on_connection_symmetric.
  - destruct Hp as (_ & _ & HN).
    pose proof (on_connection_tracked timestamp d new_demand p).
    set_solver.
Qed.




End Steps.

Section Drains.

Variable options : OPTIONS.
Variable L : LISTENERS.

Lemma queues_inv (sk sk' : SOCKETS) :
  queues sk = queues sk' →
  disconnections sk = disconnections sk'
  ∧ connections sk = connections sk' ∧ incoming sk = incoming sk'.
Proof. unfold queues. intros H. by injection H as -> -> ->. Qed.


Lemma drain_disconnections_spec (queue : list Z) (p : PROGRAM) :
  disconnections (sockets p) = queue →
  NO_DESCRIPTOR ∉ queue →
  consistent p → frozen_unmet p →
  let q := drain_disconnections queue p in
  consistent q ∧ frozen_unmet q
  ∧ tracked q ⊆ tracked p ∖ list_to_set queue
  ∧ disconnections (sockets q) = []
  ∧ connections (sockets q) = connections (sockets p)
  ∧ incoming (sockets q) = incoming (sockets p).
Proof.
  revert p. induction queue as [|d queue IH]; intros p Hq HN Hc Hf; simpl;
    unfold Sockets.next_disconnection; rewrite Hq; simpl.
  - split; [exact Hc|]. split; [exact Hf|]. split; [|done].
    change (tracked (set_sockets _ p)) with (tracked p). set_solver.
  - apply not_elem_of_cons in HN as [Hd HN].
    case_decide; [done|].
    set (p1 := set_sockets _ p).
    assert (consistent p1) as Hc1 by exact Hc.
    pose proof (on_disconnection_queues d p1) as Hqs.
    apply queues_inv in Hqs as (Hq1 & Hq2 & Hq3).
    assert (frozen_unmet (on_disconnection d p1)) as Hf1.
    { unfold frozen_unmet.
      rewrite on_disconnection_frozen, on_disconnection_unmet by apply Hc1.
      simpl. by rewrite Hf. }
    pose proof (on_disconnection_consistent d p1 Hc1 H) as Hc2.
    pose proof (on_disconnection_tracked d p1 (proj1 Hc1)) as Ht.
    change (tracked p1) with (tracked p) in Ht.
    specialize (IH (on_disconnection d p1) Hq1 HN Hc2 Hf1).
    simpl in IH. destruct IH as (? & ? & Ht' & ? & Hc' & Hi').
    split; [assumption|]. split; [assumption|].
    split.
    { revert Ht Ht'. generalize (tracked (drain_disconnections queue
                                          (on_disconnection d p1))).
      generalize (tracked (on_disconnection d p1)), (tracked p).
      clear. intros A B C Ht Ht'. set_solver. }
    split; [assumption|].
    split; [by rewrite Hc', Hq2 | by rewrite Hi', Hq3].
Qed.


Lemma drain_connections_spec (timestamp : Z) (queue : list Z)
    (new_demand : N) (p : PROGRAM) :
  connections (sockets p) = queue →
  NO_DESCRIPTOR ∉ queue → NoDup queue →
  (∀ d, d ∈ queue → d ∉ tracked p) →
  consistent p → frozen_unmet p →
  let q := (drain_connections L timestamp queue new_demand p).2 in
  consistent q ∧ frozen_unmet q
  ∧ disconnections (sockets q) = disconnections (sockets p)
  ∧ connections (sockets q) = []
  ∧ incoming (sockets q) = incoming (sockets p).
Proof.
  revert new_demand p.
  induction queue as [|d queue IH]; intros new_demand p Hq HN Hnd Hfr Hc Hf;
    simpl; unfold Sockets.next_connection; rewrite Hq; simpl.
  { split; [exact Hc|]. split; [exact Hf|]. done. }
  apply not_elem_of_cons in HN as [Hd HN].
  apply NoDup_cons in Hnd as [Hdq Hnd].
  case_decide; [done|].
  set (p1 := set_sockets _ p).
  assert (d ∉ tracked p1) as Hd1 by (apply Hfr; left).
  pose proof (on_connection_consistent L timestamp d new_demand p1 Hc H Hd1)
    as Hc'.
  pose proof (on_connection_frozen_unmet L timestamp d new_demand p1 Hf
                (proj1 Hc) Hd1) as Hf'.
  pose proof (on_connection_tracked L timestamp d new_demand p1) as Ht.
  pose proof (on_connection_queues L timestamp d new_demand p1) as Hqs.
  apply queues_inv in Hqs as (Hq1 & Hq2 & Hq3).
  destruct (on_connection L timestamp d new_demand p1) as [nd' p2].
  simpl in Hc', Hf', Ht, Hq1, Hq2, Hq3.
  assert (∀ x, x ∈ queue → x ∉ tracked p2) as Hfr2.
  { intros x Hx. change (tracked p1) with (tracked p) in Ht.
    assert (x ∉ tracked p) as Hxp by (apply Hfr; by right).
    assert (x ≠ d) as Hxd by (intros ->; contradiction).
    revert Ht Hxp Hxd. generalize (tracked p2), (tracked p). clear.
    set_solver. }
  specialize (IH nd' p2 Hq2 HN Hnd Hfr2 Hc' Hf').
  simpl in IH. destruct IH as (? & ? & Hd' & ? & Hi').
  split; [assumption|]. split; [assumption|].
  split; [by rewrite Hd', Hq1|]. split; [assumption|].
  by rewrite Hi', Hq3.
Qed.

Lemma drain_incoming_queues (timestamp : Z) (queue : list Z)
    (p : PROGRAM) :
  incoming (sockets p) = queue → NO_DESCRIPTOR ∉ queue →
  let q := drain_incoming options timestamp queue p in
  disconnections (sockets q) = disconnections (sockets p)
  ∧ connections (sockets q) = connections (sockets p)
  ∧ incoming (sockets q) = [].
Proof.
  revert p. induction queue as [|d queue IH]; intros p Hq HN; simpl;
    unfold Sockets.next_incoming; rewrite Hq; simpl; [done|].
  apply not_elem_of_cons in HN as [Hd HN].
  case_decide; [done|].
  set (p1 := set_sockets _ p).
  assert (queues (sockets (on_incoming options timestamp d p1))
          = queues (sockets p1)) as Hqs.
  { unfold on_incoming. simpl. repeat case_decide; try done.
    by destruct (verbose options). }
  apply queues_inv in Hqs as (Hq1 & Hq2 & Hq3).
  specialize (IH (on_incoming options timestamp d p1) Hq3 HN).
  simpl in IH. destruct IH as (Hd' & Hc' & ?).
  split; [exact (eq_trans Hd' Hq1)|].
  split; [exact (eq_trans Hc' Hq2)|assumption].
Qed.

End Drains.

(** ** One iteration *)

Section Iteration.

Variable options : OPTIONS.
Variable L : LISTENERS.

Lemma drained_queues (sk : SOCKETS) : drained sk ↔ queues sk = ([], [], []).
Proof.
  unfold drained, queues. split.
  - by intros (-> & -> & ->).
  - intros H. by injection H as -> -> ->.
Qed.

Lemma signal_intake_queues (pending : list Z) (alarmed : bool)
    (p : PROGRAM) :
  queues (sockets (signal_intake pending alarmed p).2) = queues (sockets p).
Proof. by rewrite signal_intake_sockets. Qed.

Lemma publish_to_queues (timestamp : Z) (new_demand : N) (driver : Z)
    (p : PROGRAM) :
  queues (sockets (publish_to options timestamp new_demand driver p))
  = queues (sockets p).
Proof.
  unfold publish_to. destruct (index _ _) as [last m].
  repeat case_decide; done.
Qed.

Lemma publish_queues (timestamp : Z) (new_demand : N) (alarmed : bool)
    (p : PROGRAM) :
  queues (sockets (publish options timestamp new_demand alarmed p))
  = queues (sockets p).
Proof.
  unfold publish. case_decide; [|done].
  generalize (elements (drivers p)). intros l. revert p.
  induction l as [|d l IH]; intros p; [done|].
  simpl. by rewrite IH, publish_to_queues.
Qed.

Lemma reap_one_queues (timestamp : Z) (entry : Z * Z) (p : PROGRAM) :
  queues (sockets (reap_one options timestamp entry p)) = queues (sockets p).
Proof.
  unfold reap_one. case_decide; [|done]. by destruct (verbose options).
Qed.

Lemma idle_reap_queues (timestamp : Z) (alarmed : bool) (p : PROGRAM) :
  queues (sockets (idle_reap options timestamp alarmed p))
  = queues (sockets p).
Proof.
  unfold idle_reap. case_decide; [|done].
  generalize (map_to_list (timestamp_map p)). intros l. revert p.
  induction l as [|e l IH]; intros p; [done|].
  simpl. by rewrite IH, reap_one_queues.
Qed.

(** What a poll leaves in the queues of a drained multiplexer. *)
Lemma poll_queues (alarmed : bool) (w : POLL) (p : PROGRAM) :
  drained (sockets p) → orderly p w →
  let sk := sockets (poll alarmed w p) in
  (NO_DESCRIPTOR ∉ disconnections sk)
  ∧ (NO_DESCRIPTOR ∉ connections sk)
  ∧ (NO_DESCRIPTOR ∉ incoming sk)
  ∧ NoDup (connections sk)
  ∧ ∀ d : Z, d ∈ connections sk →
             d ∉ tracked p ∨ d ∈ disconnections sk.
Proof.
  intros (Hd & Hc & Hi) (HNd & HNc & HNi & Hnd & Hfresh).
  unfold poll, Sockets.serve.
  destruct alarmed; [|destruct (poll_ok w)]; simpl; rewrite ?Hd, ?Hc, ?Hi;
    simpl.
  1,3: split_and!; try apply not_elem_of_nil; try apply NoDup_nil_2;
       by intros d ?%elem_of_nil.
  split; [exact HNd|]. split; [exact HNc|]. split.
  - intros (r & Hr & Hin)%list_elem_of_fmap.
    apply list_elem_of_filter in Hin as [_ Hin].
    apply HNi. apply list_elem_of_fmap. by exists r.
  - split; [exact Hnd | exact Hfresh].
Qed.

Lemma serve_and_dispatch_invariant (alarmed : bool) (e : ENV)
    (p : PROGRAM) :
  invariant p → orderly p (env_poll e) →
  invariant (serve_and_dispatch options L alarmed e p).
Proof.
  intros (Hc & Hf & Hdr) Ho. unfold serve_and_dispatch.
  pose proof (poll_queues alarmed (env_poll e) p Hdr Ho) as Hq.
  pose proof (poll_tables alarmed (env_poll e) p) as Ht.
  set (p1 := poll alarmed (env_poll e) p) in *.
  simpl in Hq. destruct Hq as (HNd & HNc & HNi & Hnd & Hfresh).
  pose proof (tables_tracked _ _ Ht) as Htr.
  assert (consistent p1) as Hc1 by (by apply (tables_consistent p)).
  assert (frozen_unmet p1) as Hf1 by (by apply (tables_frozen_unmet p)).
  pose proof (drain_disconnections_spec (disconnections (sockets p1)) p1
                eq_refl HNd Hc1 Hf1) as H2.
  set (p2 := drain_disconnections (disconnections (sockets p1)) p1) in *.
  simpl in H2. destruct H2 as (Hc2 & Hf2 & Htr2 & Hd2 & Hcq2 & Hi2).
  assert (∀ d, d ∈ connections (sockets p2) → d ∉ tracked p2) as Hfresh2.
  { intros d Hd. rewrite Hcq2 in Hd. specialize (Hfresh d Hd).
    rewrite <- Htr in Hfresh.
    assert (d ∈ disconnections (sockets p1)
            ↔ d ∈ (list_to_set (disconnections (sockets p1)) : gset Z)) as Hl
      by (by rewrite elem_of_list_to_set).
    revert Hfresh Htr2 Hl.
    generalize (tracked p2), (tracked p1),
      (list_to_set (disconnections (sockets p1)) : gset Z).
    clear. set_solver. }
  rewrite <- Hcq2 in HNc, Hnd.
  pose proof (drain_connections_spec L (env_timestamp e)
                (connections (sockets p2)) 0%N p2 eq_refl HNc Hnd Hfresh2
                Hc2 Hf2) as H3.
  destruct (drain_connections L (env_timestamp e)
              (connections (sockets p2)) 0%N p2) as [new_demand p3].
  simpl in H3. destruct H3 as (Hc3 & Hf3 & Hd3 & Hcq3 & Hi3).
  set (p4 := publish options (env_timestamp e) new_demand alarmed p3).
  pose proof (publish_tables options (env_timestamp e) new_demand alarmed p3)
    as Ht4.
  pose proof (publish_queues (env_timestamp e) new_demand alarmed p3) as Hq4.
  fold p4 in Ht4, Hq4.
  apply queues_inv in Hq4 as (Hd4 & Hcq4 & Hi4).
  assert (NO_DESCRIPTOR ∉ incoming (sockets p4)) as HNi4
    by (by rewrite Hi4, Hi3, Hi2).
  pose proof (drain_incoming_queues options (env_timestamp e)
                (incoming (sockets p4)) p4 eq_refl HNi4) as H5.
  pose proof (drain_incoming_tables options (env_timestamp e)
                (incoming (sockets p4)) p4) as Ht5.
  set (p5 := drain_incoming options (env_timestamp e)
               (incoming (sockets p4)) p4) in *.
  simpl in H5. destruct H5 as (Hd5 & Hcq5 & Hi5).
  pose proof (idle_reap_tables options (env_timestamp e) alarmed p5) as Ht6.
  pose proof (idle_reap_queues (env_timestamp e) alarmed p5) as Hq6.
  apply queues_inv in Hq6 as (Hd6 & Hcq6 & Hi6).
  assert (tables (idle_reap options (env_timestamp e) alarmed p5)
          = tables p3) as Ht36 by (by rewrite Ht6, Ht5, Ht4).
  split; [by apply (tables_consistent p3)|].
  split; [by apply (tables_frozen_unmet p3)|].
  unfold drained. rewrite Hd6, Hcq6, Hi6, Hd5, Hcq5, Hi5, Hd4, Hcq4, Hd3, Hcq3.
  done.
Qed.

Lemma startup_invariant : invariant (startup options L).
Proof.
  unfold startup. case_decide; [|case_decide].
  all: split; [|by split].
  all: split; [|split]; [| |set_solver].
  all: try (split; intros ????; by simplify_map_eq).
  all: unfold separate; simpl; set_solver.
Qed.

Lemma iteration_invariant (e : ENV) (p : PROGRAM) :
  invariant p → orderly p (env_poll e) →
  invariant (iteration options L e p).
Proof.
  intros Hp Ho. unfold iteration.
  pose proof (signal_intake_tables (env_signals e) false p) as Ht.
  pose proof (signal_intake_sockets (env_signals e) false p) as Hs.
  destruct (signal_intake (env_signals e) false p) as [alarmed p1].
  simpl in Ht, Hs.
  set (p2 := if alarmed then set_timer p1 else p1).
  assert (tables p2 = tables p) as Ht2 by (by destruct alarmed).
  assert (sockets p2 = sockets p) as Hs2 by (by destruct alarmed).
  assert (invariant p2) as Hp2.
  { destruct Hp as (Hc & Hf & Hd). split; [|split].
    - by apply (tables_consistent p).
    - by apply (tables_frozen_unmet p).
    - by rewrite Hs2. }
  assert (orderly p2 (env_poll e)) as Ho2.
  { unfold orderly in *. by rewrite (tables_tracked _ _ Ht2). }
  destruct (terminated p2); [|by apply serve_and_dispatch_invariant].
  destruct Hp2 as (Hc & Hf & Hd).
  pose proof (disconnect_listeners_tables L p2) as Ht3.
  split; [|split].
  - by apply (tables_consistent p2).
  - by apply (tables_frozen_unmet p2).
  - exact Hd.
Qed.

Lemma reachable_invariant (p : PROGRAM) :
  reachable options L p → invariant p.
Proof.
  induction 1 as [|e p _ IH Ho]; [apply startup_invariant|].
  by apply iteration_invariant.
Qed.






End Iteration.

(** ** Teardown of a pair *)

Section Teardown.

Variable options : OPTIONS.
Variable L : LISTENERS.

(** The disconnection of the supply side of a pair, in closed form. *)
Lemma on_disconnection_supply (d other : Z) (p : PROGRAM) :
  consistent p → supply_map p !! d = Some other → other ≠ NO_DESCRIPTOR →
  on_disconnection d p
  = on_sockets (Sockets.disconnect other)
      (set_demand_map (<[other := NO_DESCRIPTOR]> (demand_map p))
         (set_supply_map (delete d (supply_map p))
            (set_timestamp_map (delete d (timestamp_map p))
               (write_log (LogDisconnected d) p)))).
Proof.
  intros (Hsep & [H1 H2] & _) Hd Ho.
  pose proof (H1 d other Hd Ho) as Hr.
  unfold separate in Hsep. unfold on_disconnection. cbv zeta.
  step_cases; try done.
  all: rewrite ?lookup_delete in *; repeat case_decide; simplify_eq.
  all: exfalso; clear H1 H2; lookups_to_dom; set_solver.
Qed.

(** The disconnection of the demand side of a pair, in closed form. *)
Lemma on_disconnection_demand (d other : Z) (p : PROGRAM) :
  consistent p → demand_map p !! d = Some other → other ≠ NO_DESCRIPTOR →
  on_disconnection d p
  = on_sockets (Sockets.disconnect other)
      (set_supply_map (<[other := NO_DESCRIPTOR]> (supply_map p))
         (set_demand_map (delete d (demand_map p))
            (set_timestamp_map (delete d (timestamp_map p))
               (write_log (LogDisconnected d) p)))).
Proof.
  intros (Hsep & [H1 H2] & _) Hd Ho.
  pose proof (H2 d other Hd Ho) as Hr.
  unfold separate in Hsep. unfold on_disconnection. cbv zeta.
  step_cases; try done.
  all: rewrite ?lookup_delete in *; repeat case_decide; simplify_eq.
  all: exfalso; clear H1 H2; lookups_to_dom; set_solver.
Qed.

End Teardown.

(** ** Requests made by the new-connection step *)

Section Requests.

Variable L : LISTENERS.

Lemma on_connection_freezes (timestamp d : Z) (new_demand : N)
    (p : PROGRAM) :
  separate p → d ∉ tracked p →
  let q := (on_connection L timestamp d new_demand p).2 in
  ∃ new : list call,
    calls (sockets q) = calls (sockets p) ++ new
    ∧ (∀ x : Z, Freeze x ∈ new
                ↔ x ∈ (unmet_supply q ∪ unmet_demand q)
                      ∖ (unmet_supply p ∪ unmet_demand p))
    ∧ (∀ x : Z, Unfreeze x ∈ new
                ↔ x ∈ (unmet_supply p ∪ unmet_demand p)
                      ∖ (unmet_supply q ∪ unmet_demand q)).
Proof.
  unfold separate, tracked, on_connection. intros Hsep Hd. cbv zeta.
  step_cases; elements_to_set.
  all: eexists; split; [reflexivity || (symmetry; apply app_nil_r)|].
  all: split; intros x; rewrite ?list_elem_of_singleton, ?elem_of_nil.
  all: split; [intros ?; simplify_eq; set_solver|].
  all: intros Hx;
    lazymatch goal with
    | |- Freeze ?a = Freeze ?b =>
        destruct (decide (a = b)) as [->|]; [done | exfalso; set_solver]
    | |- Unfreeze ?a = Unfreeze ?b =>
        destruct (decide (a = b)) as [->|]; [done | exfalso; set_solver]
    | _ => exfalso; set_solver
    end.
Qed.

End Requests.

(** ** The table invariants along a run *)

Lemma example_pairing_reachable :
  reachable example_options example_listeners example_pairing.
Proof.
  unfold example_pairing.
  apply reachable_iteration; [apply reachable_iteration|].
  - apply reachable_startup.
  - unfold orderly, accepting. simpl. split_and!; try set_solver.
    apply NoDup_singleton.
  - unfold orderly, accepting. simpl. split_and!; try set_solver.
    repeat (apply NoDup_cons; split; [set_solver|]). apply NoDup_nil_2.
Defined.

(** C2: after every iteration of a run with orderly polls, a supply-side
    entry whose value is
    not [NO_DESCRIPTOR] is mirrored by the demand-side entry of that value,
    and conversely; and the teardown of one side of a pair, on consistent
    tables, removes that side's entry and leaves [NO_DESCRIPTOR] as the value
    of the surviving side. *)
Theorem peers_symmetric (options : OPTIONS) (L : LISTENERS) (p : PROGRAM) :
  reachable options L p →
  (∀ s d : Z, supply_map p !! s = Some d → d ≠ NO_DESCRIPTOR →
              demand_map p !! d = Some s)
  ∧ (∀ d s : Z, demand_map p !! d = Some s → s ≠ NO_DESCRIPTOR →
                supply_map p !! s = Some d)
  ∧ (∀ s d : Z, supply_map p !! s = Some d → d ≠ NO_DESCRIPTOR →
                supply_map (on_disconnection s p) !! s = None
                ∧ demand_map (on_disconnection s p) !! d
                  = Some NO_DESCRIPTOR)
  ∧ (∀ d s : Z, demand_map p !! d = Some s → s ≠ NO_DESCRIPTOR →
                demand_map (on_disconnection d p) !! d = None
                ∧ supply_map (on_disconnection d p) !! s
                  = Some NO_DESCRIPTOR).
Proof.
  intros (Hc & _ & _)%reachable_invariant.
  pose proof Hc as (_ & [H1 H2] & _).
  split; [exact H1|]. split; [exact H2|]. split.
  - intros s d Hs Hd. rewrite (on_disconnection_supply s d p Hc Hs Hd).
    simpl. by rewrite lookup_delete_eq, lookup_insert_eq.
  - intros d s Hd Hs. rewrite (on_disconnection_demand d s p Hc Hd Hs).
    simpl. by rewrite lookup_delete_eq, lookup_insert_eq.
Qed.

Lemma peers_symmetric_witness :
  supply_map example_pairing !! 7 = Some 8
  ∧ demand_map example_pairing !! 8 = Some 7
  ∧ demand_map (on_disconnection 7 example_pairing) !! 8
    = Some NO_DESCRIPTOR.
Proof.
  destruct (peers_symmetric example_options example_listeners
              example_pairing example_pairing_reachable)
    as (H1 & _ & H3 & _).
  assert (supply_map example_pairing !! 7 = Some 8) as Hs
    by (vm_compute; reflexivity).
  assert (8 ≠ NO_DESCRIPTOR) as Hne by (unfold NO_DESCRIPTOR; lia).
  split; [exact Hs|]. split; [exact (H1 7 8 Hs Hne)|].
  exact (proj2 (H3 7 8 Hs Hne)).
Defined.


(** C8: after every iteration of a run with orderly polls, the descriptors
    the multiplexer
    holds frozen are those of [unmet_supply] and [unmet_demand]; and on
    separate tables the new-connection step requests [freeze] for the
    descriptors it adds to a waiting set and [unfreeze] for those it takes
    out of one, and for no other. *)
Theorem frozen_iff_unmet (options : OPTIONS) (L : LISTENERS) (p : PROGRAM) :
  reachable options L p →
  (∀ d : Z, d ∈ frozen (sockets p) ↔ d ∈ unmet_supply p ∪ unmet_demand p)
  ∧ ∀ (q : PROGRAM) (timestamp d : Z) (new_demand : N),
      separate q → d ∉ tracked q →
      let q' := (on_connection L timestamp d new_demand q).2 in
      ∃ new : list call,
        calls (sockets q') = calls (sockets q) ++ new
        ∧ (∀ x : Z, Freeze x ∈ new
                    ↔ x ∈ (unmet_supply q' ∪ unmet_demand q')
                          ∖ (unmet_supply q ∪ unmet_demand q))
        ∧ (∀ x : Z, Unfreeze x ∈ new
                    ↔ x ∈ (unmet_supply q ∪ unmet_demand q)
                          ∖ (unmet_supply q' ∪ unmet_demand q')).
Proof.
  intros (_ & Hf & _)%reachable_invariant. split.
  - intros d. unfold frozen_unmet in Hf. by rewrite Hf.
  - intros q timestamp d new_demand Hs Hd.
    by apply on_connection_freezes.
Qed.

Lemma frozen_iff_unmet_witness :
  (9 ∈ frozen (sockets example_pairing) ↔ 9 ∈ unmet_demand example_pairing)
  ∧ 9 ∈ unmet_demand example_pairing
  ∧ 7 ∉ frozen (sockets example_pairing).
Proof.
  destruct (frozen_iff_unmet example_options example_listeners
              example_pairing example_pairing_reachable) as [H _].
  assert (unmet_supply example_pairing = ∅) as Hs by (by vm_compute).
  assert (unmet_demand example_pairing = {[9]}) as Hd by (by vm_compute).
  split; [|split].
  - rewrite (H 9), Hs. set_solver.
  - rewrite Hd. set_solver.
  - rewrite (H 7), Hs, Hd. set_solver.
Defined.

(** ** Publication to the drivers *)

Section Publication.

Variable options : OPTIONS.
Variable L : LISTENERS.

Lemma wrap64_small (z : Z) : - 2 ^ 63 <= z < 2 ^ 63 → wrap64 z = z.
Proof.
  intros Hz. unfold wrap64.
  rewrite Z.mod_small by lia. lia.
Qed.

Lemma wrap64_succ (t : Z) : clock_range t → wrap64 (t + 1) = t + 1.
Proof. unfold clock_range. intros Ht. apply wrap64_small. lia. Qed.

Lemma wrap64_sub (t s : Z) :
  clock_range t → clock_range s → wrap64 (t - s) = t - s.
Proof. unfold clock_range. intros Ht Hs. apply wrap64_small. lia. Qed.

(** A driver whose entry lies ahead of the clock is skipped and its entry
    brought back to the clock. *)
Lemma publish_to_ahead (timestamp : Z) (new_demand : N) (driver last : Z)
    (p : PROGRAM) :
  timestamp_map p !! driver = Some last → last > timestamp →
  publish_to options timestamp new_demand driver p
  = stamp driver timestamp p.
Proof.
  intros Hl Hgt. unfold publish_to, index. rewrite Hl.
  case_decide; [|lia]. by destruct p.
Qed.

(** A driver whose entry does not lie ahead of the clock is sent the delta
    when there is one. *)
Lemma publish_to_delta (timestamp : Z) (new_demand : N) (driver last : Z)
    (p : PROGRAM) :
  timestamp_map p !! driver = Some last → last <= timestamp →
  new_demand ≠ 0%N →
  publish_to options timestamp new_demand driver p
  = stamp driver timestamp
      (on_sockets (Sockets.writef_lu driver new_demand) p).
Proof.
  intros Hl Hle Hnd. unfold publish_to, index. rewrite Hl.
  case_decide; [lia|]. case_decide; [done|]. by destruct p.
Qed.

Lemma publish_to_timestamp (timestamp : Z) (new_demand : N) (driver x : Z)
    (p : PROGRAM) :
  x ≠ driver →
  timestamp_map (publish_to options timestamp new_demand driver p) !! x
  = timestamp_map p !! x.
Proof.
  intros Hx. unfold publish_to, index.
  destruct (timestamp_map p !! driver) as [last|] eqn:E.
  all: repeat case_decide; simpl; by rewrite ?lookup_insert_ne.
Qed.

(** What one step of the publication pass sends: nothing, or one line to
    the driver it visits. *)
Lemma publish_to_calls (timestamp : Z) (new_demand : N) (driver : Z)
    (p : PROGRAM) :
  let q := publish_to options timestamp new_demand driver p in
  calls (sockets q) = calls (sockets p)
  ∨ ∃ n : N,
      calls (sockets q) = calls (sockets p) ++ [Writef driver (Sockets.format_lu n)]
      ∧ (n = new_demand ∧ new_demand ≠ 0%N
         ∨ n = N.of_nat (size (unmet_demand p)) ∧ new_demand = 0%N).
Proof.
  unfold publish_to, index.
  destruct (timestamp_map p !! driver) as [last|] eqn:E.
  all: repeat case_decide; simpl; auto.
  all: right; eexists; split; [reflexivity|]; auto.
Qed.

(** The publication pass over the drivers [l]. *)
Lemma publish_pass_timestamp (timestamp : Z) (new_demand : N) (l : list Z)
    (x : Z) (p : PROGRAM) :
  x ∉ l →
  timestamp_map
    (foldl (λ p driver, publish_to options timestamp new_demand driver p) p l)
  !! x = timestamp_map p !! x.
Proof.
  revert p. induction l as [|d l IH]; intros p Hx; [done|].
  apply not_elem_of_cons in Hx as [Hd Hl]. simpl.
  rewrite IH by done. by apply publish_to_timestamp.
Qed.

Lemma publish_pass_tables (timestamp : Z) (new_demand : N) (l : list Z)
    (p : PROGRAM) :
  tables
    (foldl (λ p driver, publish_to options timestamp new_demand driver p) p l)
  = tables p.
Proof.
  revert p. induction l as [|d l IH]; intros p; [done|].
  simpl. by rewrite IH, publish_to_tables.
Qed.

(** Every line the pass sends goes to a driver of [l] and carries the delta
    when there is one, the backlog otherwise. *)
Lemma publish_pass_calls (timestamp : Z) (new_demand : N) (l : list Z)
    (p : PROGRAM) :
  ∃ new : list call,
    calls (sockets
             (foldl (λ p driver,
                       publish_to options timestamp new_demand driver p) p l))
    = calls (sockets p) ++ new
    ∧ ∀ c : call, c ∈ new →
        ∃ (x : Z) (n : N),
          c = Writef x (Sockets.format_lu n) ∧ x ∈ l
          ∧ (n = new_demand ∧ new_demand ≠ 0%N
             ∨ n = N.of_nat (size (unmet_demand p)) ∧ new_demand = 0%N).
Proof.
  revert p. induction l as [|d l IH]; intros p; simpl.
  { exists []. split; [by rewrite app_nil_r|]. by intros c ?%elem_of_nil. }
  destruct (IH (publish_to options timestamp new_demand d p))
    as (new & Hnew & Hall).
  pose proof (publish_to_tables options timestamp new_demand d p)
    as (_ & _ & _ & Hud & _)%tables_inv.
  rewrite Hud in Hall.
  destruct (publish_to_calls timestamp new_demand d p) as [Hc|(n & Hc & Hn)].
  - exists new. split; [by rewrite Hnew, Hc|].
    intros c Hin. destruct (Hall c Hin) as (x & m & -> & Hx & Hm).
    exists x, m. split; [done|]. split; [by right|done].
  - exists (Writef d (Sockets.format_lu n) :: new).
    split; [by rewrite Hnew, Hc, <- app_assoc|].
    intros c [->|Hin]%elem_of_cons.
    + exists d, n. split; [done|]. split; [by left|done].
    + destruct (Hall c Hin) as (x & m & -> & Hx & Hm).
      exists x, m. split; [done|]. split; [by right|done].
Qed.

(** A driver whose entry lies ahead of the clock when the pass starts gets
    no line, and its entry is brought back to the clock. *)
Lemma publish_pass_ahead (timestamp : Z) (new_demand : N) (l : list Z)
    (d last : Z) (p : PROGRAM) :
  NoDup l → d ∈ l →
  timestamp_map p !! d = Some last → last > timestamp →
  let q := foldl (λ p driver,
                    publish_to options timestamp new_demand driver p) p l in
  timestamp_map q !! d = Some timestamp
  ∧ ∃ new : list call,
      calls (sockets q) = calls (sockets p) ++ new
      ∧ ∀ text : string, Writef d text ∉ new.
Proof.
  revert p. induction l as [|x l IH]; intros p Hnd Hin Hl Hgt; simpl.
  { by apply elem_of_nil in Hin. }
  apply NoDup_cons in Hnd as [Hx Hnd].
  destruct (decide (x = d)) as [->|Hne].
  - rewrite (publish_to_ahead timestamp new_demand d last p Hl Hgt).
    split.
    + rewrite publish_pass_timestamp by done. simpl.
      by rewrite lookup_insert_eq.
    + destruct (publish_pass_calls timestamp new_demand l
                  (stamp d timestamp p)) as (new & Hnew & Hall).
      exists new. split; [exact Hnew|].
      intros text Hw. destruct (Hall _ Hw) as (y & n & Heq & Hy & _).
      by simplify_eq.
  - apply elem_of_cons in Hin as [->|Hin]; [done|].
    assert (timestamp_map (publish_to options timestamp new_demand x p) !! d
            = Some last) as Hl'
      by (by rewrite publish_to_timestamp).
    destruct (IH _ Hnd Hin Hl' Hgt) as (Ht & new & Hnew & Hall).
    split; [exact Ht|].
    destruct (publish_to_calls timestamp new_demand x p)
      as [Hc|(n & Hc & Hn)].
    + exists new. split; [by rewrite Hnew, Hc | exact Hall].
    + exists (Writef x (Sockets.format_lu n) :: new).
      split; [by rewrite Hnew, Hc, <- app_assoc|].
      intros text [Heq|Hw]%elem_of_cons; [by simplify_eq|].
      by apply (Hall text).
Qed.

Lemma publish_ahead (timestamp : Z) (new_demand : N) (alarmed : bool)
    (d last : Z) (p : PROGRAM) :
  d ∈ drivers p → timestamp_map p !! d = Some last → last > timestamp →
  new_demand ≠ 0%N ∨ alarmed = true →
  let q := publish options timestamp new_demand alarmed p in
  timestamp_map q !! d = Some timestamp
  ∧ ∃ new : list call,
      calls (sockets q) = calls (sockets p) ++ new
      ∧ ∀ text : string, Writef d text ∉ new.
Proof.
  intros Hd Hl Hgt Hrun. unfold publish. case_decide; [|done].
  apply (publish_pass_ahead _ _ _ d last); try done.
  - apply NoDup_elements.
  - by apply elem_of_elements.
Qed.

Lemma on_connection_driver (timestamp d : Z) (new_demand : N)
    (p : PROGRAM) :
  Sockets.get_listener d (sockets p) = driver_descriptor L →
  driver_descriptor L ≠ NO_DESCRIPTOR →
  driver_descriptor L ≠ supply_descriptor L →
  driver_descriptor L ≠ demand_descriptor L →
  on_connection L timestamp d new_demand p
  = (new_demand,
     on_sockets
       (Sockets.writef_lu d (N.of_nat (size (unmet_demand p))))
       (stamp d (wrap64 (timestamp + 1))
          (set_drivers ({[d]} ∪ drivers p)
             (stamp d timestamp (write_log (LogNewConnection d) p))))).
Proof.
  intros Hl Hn Hs Hd. unfold on_connection. cbv zeta.
  change (Sockets.get_listener d
            (sockets (stamp d timestamp (write_log (LogNewConnection d) p))))
    with (Sockets.get_listener d (sockets p)).
  rewrite Hl. repeat case_decide; try done. exfalso. auto.
Qed.

(** C5: a connection accepted on the enabled driver listener is inserted
    into [drivers], is sent the current size of [unmet_demand] as a decimal
    line at once, and gets the second after the current one as its activity
    stamp; a publication pass at the same second that finds this stamp sets
    it back to the current second and sends the driver nothing. *)
Theorem driver_greeting (timestamp d : Z) (new_demand : N) (p : PROGRAM) :
  Sockets.get_listener d (sockets p) = driver_descriptor L →
  driver_descriptor L ≠ NO_DESCRIPTOR →
  driver_descriptor L ≠ supply_descriptor L →
  driver_descriptor L ≠ demand_descriptor L →
  clock_range timestamp →
  let q := (on_connection L timestamp d new_demand p).2 in
  drivers q = {[d]} ∪ drivers p
  ∧ calls (sockets q)
    = calls (sockets p)
      ++ [Writef d (Sockets.format_lu (N.of_nat (size (unmet_demand p))))]
  ∧ timestamp_map q !! d = Some (timestamp + 1)
  ∧ timestamp + 1 > timestamp
  ∧ ∀ (q' : PROGRAM) (delta : N) (alarmed : bool),
      d ∈ drivers q' → timestamp_map q' !! d = Some (timestamp + 1) →
      delta ≠ 0%N ∨ alarmed = true →
      let r := publish options timestamp delta alarmed q' in
      timestamp_map r !! d = Some timestamp
      ∧ ∃ new : list call,
          calls (sockets r) = calls (sockets q') ++ new
          ∧ ∀ text : string, Writef d text ∉ new.
Proof.
  intros Hl Hn Hs Hd Ht.
  rewrite (on_connection_driver timestamp d new_demand p Hl Hn Hs Hd).
  simpl. rewrite (wrap64_succ timestamp Ht).
  split; [done|]. split; [done|].
  split; [by rewrite lookup_insert_eq|]. split; [lia|].
  intros q' delta alarmed Hin Hq' Hrun.
  apply (publish_ahead _ _ _ d (timestamp + 1)); try done. lia.
Qed.

End Publication.

Lemma driver_greeting_witness :
  let q := (on_connection example_listeners 100 7 0%N
              example_driver_arrival).2 in
  7 ∈ drivers q
  ∧ calls (sockets q) = [Writef 7 (Sockets.format_lu 0%N)]
  ∧ timestamp_map q !! 7 = Some 101
  ∧ timestamp_map (publish example_options 100 0%N true q) !! 7 = Some 100.
Proof.
  intros q.
  assert (Sockets.get_listener 7 (sockets example_driver_arrival)
          = driver_descriptor example_listeners) as Hl
    by (vm_compute; reflexivity).
  assert (driver_descriptor example_listeners ≠ NO_DESCRIPTOR) as Hn
    by (vm_compute; discriminate).
  assert (driver_descriptor example_listeners
          ≠ supply_descriptor example_listeners) as Hs
    by (vm_compute; discriminate).
  assert (driver_descriptor example_listeners
          ≠ demand_descriptor example_listeners) as Hd
    by (vm_compute; discriminate).
  assert (clock_range 100) as Ht by (unfold clock_range; lia).
  destruct (driver_greeting example_options example_listeners 100 7 0%N
              example_driver_arrival Hl Hn Hs Hd Ht)
    as (Hdr & Hc & Hst & _ & Hpub).
  fold q in Hdr, Hc, Hst.
  assert (7 ∈ drivers q) as Hin by (rewrite Hdr; set_solver).
  split; [exact Hin|]. split; [exact Hc|]. split; [exact Hst|].
  exact (proj1 (Hpub q 0%N true Hin Hst (or_intror eq_refl))).
Defined.

(** ** The incoming loop *)

Section Incoming.

Variable options : OPTIONS.

Lemma on_incoming_queues (timestamp d : Z) (p : PROGRAM) :
  queues (sockets (on_incoming options timestamp d p)) = queues (sockets p).
Proof.
  unfold on_incoming. simpl. repeat case_decide; try done.
  by destruct (verbose options).
Qed.

Lemma on_incoming_stamp (timestamp d : Z) (p : PROGRAM) :
  timestamp_map (on_incoming options timestamp d p) !! d = Some timestamp.
Proof. unfold on_incoming. simpl. by rewrite lookup_insert_eq. Qed.

(** Whatever the loop stamps, it stamps with the current second. *)
Lemma on_incoming_keeps (timestamp d x : Z) (p : PROGRAM) :
  timestamp_map p !! x = Some timestamp →
  timestamp_map (on_incoming options timestamp d p) !! x = Some timestamp.
Proof.
  intros Hx. unfold on_incoming. simpl.
  destruct (decide (x = d)) as [->|Hne]; [by rewrite lookup_insert_eq|].
  rewrite lookup_insert_ne by done.
  repeat case_decide; try done.
  destruct (verbose options); simpl.
  all: rewrite lookup_insert; by case_decide.
Qed.

(** Bytes read from a driver: the buffer is taken and dropped. *)
Lemma on_incoming_driver (timestamp d : Z) (p : PROGRAM) :
  d ∈ drivers p →
  on_incoming options timestamp d p
  = stamp d timestamp
      (set_sockets (Sockets.swap_incoming d [] (sockets p)).2 p).
Proof. intros Hd. unfold on_incoming. simpl. by case_decide. Qed.

Lemma drain_incoming_keeps (timestamp : Z) (queue : list Z) (x : Z)
    (p : PROGRAM) :
  timestamp_map p !! x = Some timestamp →
  timestamp_map (drain_incoming options timestamp queue p) !! x
  = Some timestamp.
Proof.
  revert p. induction queue as [|d0 queue IH]; intros p Hx; simpl;
    unfold Sockets.next_incoming;
    destruct (incoming (sockets p)) as [|d q]; try exact Hx.
  simpl. case_decide; [exact Hx|].
  apply IH. by apply on_incoming_keeps.
Qed.

Lemma drain_incoming_stamps (timestamp : Z) (queue : list Z) (d : Z)
    (p : PROGRAM) :
  incoming (sockets p) = queue → NO_DESCRIPTOR ∉ queue → d ∈ queue →
  timestamp_map (drain_incoming options timestamp queue p) !! d
  = Some timestamp.
Proof.
  revert p. induction queue as [|d0 queue IH]; intros p Hq HN Hd.
  { by apply elem_of_nil in Hd. }
  apply not_elem_of_cons in HN as [Hd0 HN].
  simpl. unfold Sockets.next_incoming. rewrite Hq. simpl.
  case_decide; [done|].
  set (p1 := set_sockets _ p).
  destruct (decide (d = d0)) as [->|Hne].
  - apply drain_incoming_keeps, on_incoming_stamp.
  - apply elem_of_cons in Hd as [?|Hd]; [done|].
    apply IH; try done.
    pose proof (on_incoming_queues timestamp d0 p1)
      as (_ & _ & Hi)%queues_inv.
    exact Hi.
Qed.

(** C10: the incoming loop stamps every descriptor it reads from with the
    current second, drivers included; what a driver sent is taken out of its
    read buffer and dropped, nothing is forwarded or logged; and whatever
    stamp the driver had before, the one ahead of the clock included, the
    next pass that carries a delta sends it to this driver. *)
Theorem incoming_stamps (timestamp : Z) (p : PROGRAM) :
  NO_DESCRIPTOR ∉ incoming (sockets p) →
  (∀ d : Z, d ∈ incoming (sockets p) →
     timestamp_map
       (drain_incoming options timestamp (incoming (sockets p)) p) !! d
     = Some timestamp)
  ∧ (∀ (d : Z) (q : PROGRAM), d ∈ drivers q →
       let r := on_incoming options timestamp d q in
       timestamp_map r !! d = Some timestamp
       ∧ calls (sockets r) = calls (sockets q)
       ∧ log r = log q
       ∧ inbuf (sockets r) !! d = Some [])
  ∧ (∀ (d : Z) (q : PROGRAM) (later : Z) (delta : N),
       d ∈ drivers q → timestamp <= later → delta ≠ 0%N →
       let r := on_incoming options timestamp d q in
       calls (sockets (publish_to options later delta d r))
       = calls (sockets r) ++ [Writef d (Sockets.format_lu delta)]).
Proof.
  intros HN. split; [|split].
  - intros d Hd. by apply drain_incoming_stamps.
  - intros d q Hd. rewrite (on_incoming_driver timestamp d q Hd). simpl.
    by rewrite !lookup_insert_eq.
  - intros d q later delta Hd Hle Hdelta. simpl.
    rewrite (publish_to_delta options later delta d timestamp); try done.
    apply on_incoming_stamp.
Qed.

End Incoming.

Lemma incoming_stamps_witness :
  timestamp_map example_driver_talks !! 7 = Some 101
  ∧ timestamp_map
      (drain_incoming example_options 100
         (incoming (sockets example_driver_talks)) example_driver_talks)
    !! 7 = Some 100.
Proof.
  assert (incoming (sockets example_driver_talks) = [7]) as Hi
    by (vm_compute; reflexivity).
  assert (NO_DESCRIPTOR ∉ incoming (sockets example_driver_talks)) as HN.
  { rewrite Hi. apply not_elem_of_cons. split; [done|apply not_elem_of_nil]. }
  destruct (incoming_stamps example_options 100 example_driver_talks HN)
    as (H & _).
  split; [vm_compute; reflexivity|].
  apply H. rewrite Hi. by apply list_elem_of_singleton.
Defined.

(** ** The idle reaper *)

Section Reaper.

Variable options : OPTIONS.

Lemma reap_one_timestamp_map (timestamp : Z) (entry : Z * Z) (p : PROGRAM) :
  timestamp_map (reap_one options timestamp entry p) = timestamp_map p.
Proof.
  unfold reap_one. case_decide; [|done]. by destruct (verbose options).
Qed.

(** The requests of a reaper pass over the entries [l]: one [disconnect] per
    entry that is due, in the order of the entries. *)
Lemma reap_pass_calls (timestamp : Z) (l : list (Z * Z)) (p : PROGRAM) :
  calls (sockets (foldl (λ p entry, reap_one options timestamp entry p) p l))
  = calls (sockets p)
    ++ ((λ entry : Z * Z, Disconnect entry.1)
          <$> filter (λ entry : Z * Z,
                        wrap64 (timestamp - entry.2) >= idle_timeout options)
                l).
Proof.
  revert p. induction l as [|e l IH]; intros p; simpl.
  { by rewrite app_nil_r. }
  rewrite IH, filter_cons. unfold reap_one.
  case_decide; [|done].
  destruct (verbose options); simpl; by rewrite <- app_assoc.
Qed.

Lemma reap_pass_timestamp_map (timestamp : Z) (l : list (Z * Z))
    (p : PROGRAM) :
  timestamp_map (foldl (λ p entry, reap_one options timestamp entry p) p l)
  = timestamp_map p.
Proof.
  revert p. induction l as [|e l IH]; intros p; [done|].
  simpl. by rewrite IH, reap_one_timestamp_map.
Qed.

(** The reaper pass on its own, from whatever state it starts: it requests
    [disconnect] for the descriptors whose activity stamp lies at least
    [idle_timeout] seconds behind the clock, once each, and requests nothing
    else; it does so only when its flag is set and [idle_timeout] is
    positive; a stamp ahead of the clock is never due. *)
Lemma idle_reap_exact (timestamp : Z) (alarmed : bool) (p : PROGRAM) :
  clock_range timestamp →
  (∀ d ts : Z, timestamp_map p !! d = Some ts → clock_range ts) →
  let q := idle_reap options timestamp alarmed p in
  ∃ new : list call,
    calls (sockets q) = calls (sockets p) ++ new
    ∧ NoDup new
    ∧ (∀ c : call, c ∈ new → ∃ d : Z, c = Disconnect d)
    ∧ (∀ d : Z,
         Disconnect d ∈ new
         ↔ idle_timeout options > 0 ∧ alarmed = true
           ∧ ∃ ts : Z, timestamp_map p !! d = Some ts
                       ∧ timestamp - ts >= idle_timeout options)
    ∧ (∀ d ts : Z, timestamp_map p !! d = Some ts → timestamp - ts < 0 →
                   Disconnect d ∉ new)
    ∧ (idle_timeout options = 0 ∨ alarmed = false → q = p)
    ∧ timestamp_map q = timestamp_map p.
Proof.
  intros Ht Hts. unfold idle_reap. simpl.
  destruct (decide (idle_timeout options > 0 ∧ alarmed = true))
    as [[Hpos Hal]|Hno].
  - set (l := map_to_list (timestamp_map p)).
    set (due := λ entry : Z * Z,
                  wrap64 (timestamp - entry.2) >= idle_timeout options).
    exists ((λ entry : Z * Z, Disconnect entry.1) <$> filter due l).
    assert (∀ d : Z,
              Disconnect d ∈ (λ entry : Z * Z, Disconnect entry.1)
                               <$> filter due l
              ↔ ∃ ts : Z, timestamp_map p !! d = Some ts
                          ∧ timestamp - ts >= idle_timeout options) as Hiff.
    { intros d. rewrite list_elem_of_fmap. split.
      - intros ([d' ts] & Heq & [Hdue Hin]%list_elem_of_filter).
        simpl in Heq. injection Heq as ->.
        apply elem_of_map_to_list in Hin. exists ts. split; [done|].
        unfold due in Hdue. simpl in Hdue.
        by rewrite wrap64_sub in Hdue by eauto.
      - intros (ts & Hl & Hge). exists (d, ts). split; [done|].
        apply list_elem_of_filter. split; [|by apply elem_of_map_to_list].
        unfold due. simpl. by rewrite wrap64_sub by eauto. }
    split; [apply reap_pass_calls|]. split; [|split; [|split; [|split]]].
    + change (NoDup (Disconnect ∘ fst <$> filter due l)).
      rewrite (list_fmap_compose fst Disconnect).
      apply NoDup_fmap_2_strong; [by intros x y _ _ [= ->]|].
      apply (sublist_NoDup _ (fst <$> l)).
      * apply NoDup_fst_map_to_list.
      * apply fmap_sublist, sublist_filter.
    + intros c ([d ts] & -> & _)%list_elem_of_fmap. by exists d.
    + intros d. rewrite Hiff. naive_solver.
    + intros d ts Hl Hneg (ts' & Hl' & Hge)%Hiff. simplify_eq. lia.
    + split; [|apply reap_pass_timestamp_map].
      intros [H0|Hf]; [lia|]. by rewrite Hal in Hf.
  - exists []. split; [by rewrite app_nil_r|]. split; [apply NoDup_nil_2|].
    split; [by intros c ?%elem_of_nil|]. split; [|split; [|done]].
    + intros d. rewrite elem_of_nil. naive_solver.
    + intros d ts _ _. apply not_elem_of_nil.
Qed.

End Reaper.

(** ** Teardown of a pair, both sides *)

Section Pairs.

Variable options : OPTIONS.
Variable L : LISTENERS.

Lemma on_disconnection_timestamp_map (d : Z) (p : PROGRAM) :
  timestamp_map (on_disconnection d p) = delete d (timestamp_map p).
Proof. unfold on_disconnection. cbv zeta. by step_cases. Qed.

(** The disconnection of a descriptor whose peer is already gone requests
    nothing of the multiplexer. *)
Lemma on_disconnection_survivor (d : Z) (p : PROGRAM) :
  separate p →
  supply_map p !! d = Some NO_DESCRIPTOR
  ∨ demand_map p !! d = Some NO_DESCRIPTOR →
  calls (sockets (on_disconnection d p)) = calls (sockets p).
Proof.
  unfold separate, on_disconnection. intros Hsep Hd. cbv zeta.
  step_cases; try done.
  all: exfalso; destruct Hd; simplify_eq; lookups_to_dom; set_solver.
Qed.

(** What the disconnection of one descriptor requests: nothing, or the
    disconnection of the peer its entry names. *)
Lemma on_disconnection_calls (d : Z) (p : PROGRAM) :
  calls (sockets (on_disconnection d p)) = calls (sockets p)
  ∨ ∃ other : Z,
      other ≠ NO_DESCRIPTOR
      ∧ (supply_map p !! d = Some other ∨ demand_map p !! d = Some other)
      ∧ calls (sockets (on_disconnection d p))
        = calls (sockets p) ++ [Disconnect other].
Proof.
  unfold on_disconnection. cbv zeta.
  step_cases; auto.
  all: right; eexists; split; [eassumption|]; split; [|reflexivity]; auto.
Qed.

(** The disconnection of [d] leaves alone the entries of every descriptor
    other than [d] and the peer that the entry of [d] names. *)
Lemma on_disconnection_frame (d x : Z) (p : PROGRAM) :
  x ≠ d →
  (∀ o : Z, supply_map p !! d = Some o ∨ demand_map p !! d = Some o →
            o ≠ NO_DESCRIPTOR → x ≠ o) →
  supply_map (on_disconnection d p) !! x = supply_map p !! x
  ∧ demand_map (on_disconnection d p) !! x = demand_map p !! x
  ∧ timestamp_map (on_disconnection d p) !! x = timestamp_map p !! x.
Proof.
  intros Hx Ho. rewrite on_disconnection_timestamp_map.
  rewrite (lookup_delete_ne (timestamp_map p)) by done.
  unfold on_disconnection. cbv zeta.
  step_cases; try done.
  all: rewrite ?lookup_insert_ne, ?lookup_delete_ne; auto.
  all: intros ->; eapply Ho; eauto.
Qed.

Lemma on_disconnection_waiting (d : Z) (p : PROGRAM) :
  d ∈ dom (supply_map p) ∪ dom (demand_map p) → d ∉ drivers p →
  unmet_supply (on_disconnection d p) = unmet_supply p
  ∧ unmet_demand (on_disconnection d p) = unmet_demand p
  ∧ drivers (on_disconnection d p) = drivers p.
Proof.
  intros Hd Hdr. unfold on_disconnection. cbv zeta.
  step_cases; try done.
  all: exfalso; lookups_to_dom; set_solver.
Qed.

(** The disconnection of one side [d] of a pair removes the activity
    stamp and the pairing entry of [d], leaves [NO_DESCRIPTOR] in the entry
    of its partner, and requests the disconnection of the partner and
    nothing else; no entry of a third descriptor changes, nor does any
    waiting set or the set of drivers.  When the disconnection of the
    partner is handled right after it, that one requests nothing, and
    neither descriptor is then in a table or among the activity stamps. *)
Theorem pair_teardown (d other : Z) (p : PROGRAM) :
  consistent p →
  supply_map p !! d = Some other ∨ demand_map p !! d = Some other →
  other ≠ NO_DESCRIPTOR →
  let q := on_disconnection d p in
  let r := on_disconnection other q in
  (timestamp_map q !! d = None
   ∧ supply_map q !! d = None ∧ demand_map q !! d = None)
  ∧ (supply_map q !! other = Some NO_DESCRIPTOR
     ∨ demand_map q !! other = Some NO_DESCRIPTOR)
  ∧ calls (sockets q) = calls (sockets p) ++ [Disconnect other]
  ∧ (∀ x : Z, x ≠ d → x ≠ other →
       supply_map q !! x = supply_map p !! x
       ∧ demand_map q !! x = demand_map p !! x
       ∧ timestamp_map q !! x = timestamp_map p !! x)
  ∧ (unmet_supply q = unmet_supply p ∧ unmet_demand q = unmet_demand p
     ∧ drivers q = drivers p)
  ∧ calls (sockets r) = calls (sockets q)
  ∧ ((d ∉ tracked r) ∧ (other ∉ tracked r))
  ∧ (timestamp_map r !! d = None ∧ timestamp_map r !! other = None)
  ∧ (∀ x : Z, x ≠ d → x ≠ other →
       supply_map r !! x = supply_map p !! x
       ∧ demand_map r !! x = demand_map p !! x).
Proof.
  intros Hc Hd Ho q r.
  pose proof Hc as (Hsep & [H1 H2] & HN).
  assert (d ∈ dom (supply_map p) ∪ dom (demand_map p)) as Hdom.
  { destruct Hd as [Hd|Hd]; apply (elem_of_dom_2 (D:=gset Z)) in Hd;
      set_solver. }
  assert (d ≠ NO_DESCRIPTOR) as HdN.
  { intros ->. apply HN. unfold tracked. set_solver. }
  assert (d ∉ drivers p) as Hdr.
  { unfold separate in Hsep. clear H1 H2. set_solver. }
  assert (d ≠ other) as Hne.
  { intros <-. destruct Hd as [Hd|Hd].
    - pose proof (H1 d d Hd Ho) as Hr.
      unfold separate in Hsep. clear H1 H2. lookups_to_dom. set_solver.
    - pose proof (H2 d d Hd Ho) as Hr.
      unfold separate in Hsep. clear H1 H2. lookups_to_dom. set_solver. }
  assert (consistent q) as Hcq by (by apply on_disconnection_consistent).
  pose proof (on_disconnection_tracked d p Hsep) as Htq.
  pose proof (on_disconnection_tracked other q (proj1 Hcq)) as Htr.
  fold q in Htq. fold r in Htr.
  assert ((timestamp_map q !! d = None
           ∧ supply_map q !! d = None ∧ demand_map q !! d = None)
          ∧ (supply_map q !! other = Some NO_DESCRIPTOR
             ∨ demand_map q !! other = Some NO_DESCRIPTOR)
          ∧ calls (sockets q) = calls (sockets p) ++ [Disconnect other])
    as (Hgone & Hsurv & Hcalls).
  { subst q. destruct Hd as [Hd|Hd].
    - rewrite (on_disconnection_supply d other p Hc Hd Ho). simpl.
      rewrite !lookup_delete_eq, lookup_insert_eq.
      rewrite (lookup_insert_ne (demand_map p)) by done.
      split; [|split; [by right|done]].
      split; [done|]. split; [done|].
      apply (not_elem_of_dom (D:=gset Z)).
      apply (elem_of_dom_2 (D:=gset Z)) in Hd.
      unfold separate in Hsep. clear H1 H2. set_solver.
    - rewrite (on_disconnection_demand d other p Hc Hd Ho). simpl.
      rewrite !lookup_delete_eq, lookup_insert_eq.
      rewrite (lookup_insert_ne (supply_map p)) by done.
      split; [|split; [by left|done]].
      split; [done|]. split; [|done].
      apply (not_elem_of_dom (D:=gset Z)).
      apply (elem_of_dom_2 (D:=gset Z)) in Hd.
      unfold separate in Hsep. clear H1 H2. set_solver. }
  assert (∀ x : Z, x ≠ d → x ≠ other →
            supply_map q !! x = supply_map p !! x
            ∧ demand_map q !! x = demand_map p !! x
            ∧ timestamp_map q !! x = timestamp_map p !! x) as Hframe.
  { intros x Hxd Hxo. apply on_disconnection_frame; [done|].
    intros o Hdo _ ->. destruct Hd, Hdo; simplify_eq.
    - pose proof (H1 d other ltac:(done) Ho).
      unfold separate in Hsep. clear H1 H2. lookups_to_dom. set_solver.
    - pose proof (H2 d other ltac:(done) Ho).
      unfold separate in Hsep. clear H1 H2. lookups_to_dom. set_solver. }
  split; [exact Hgone|]. split; [exact Hsurv|]. split; [exact Hcalls|].
  split; [exact Hframe|].
  split; [by apply on_disconnection_waiting|].
  split; [by apply on_disconnection_survivor; [apply Hcq|]|].
  split.
  { revert Htq Htr. generalize (tracked r), (tracked q), (tracked p). clear.
    set_solver. }
  split.
  { subst r. rewrite on_disconnection_timestamp_map.
    rewrite lookup_delete_eq, lookup_delete_ne by done.
    split; [apply Hgone|done]. }
  intros x Hxd Hxo.
  destruct (Hframe x Hxd Hxo) as (Hs & Hdm & _). rewrite <- Hs, <- Hdm.
  assert (supply_map r !! x = supply_map q !! x
          ∧ demand_map r !! x = demand_map q !! x
          ∧ timestamp_map r !! x = timestamp_map q !! x) as (? & ? & _);
    [|done].
  apply on_disconnection_frame; [done|].
  intros o Hoo HoN. destruct Hsurv, Hoo; simplify_eq.
  all: exfalso; pose proof (proj1 Hcq) as Hsq; unfold separate in Hsq.
  all: clear -Hsq H H0; lookups_to_dom; set_solver.
Qed.

End Pairs.

Lemma pair_teardown_witness :
  let q := on_disconnection 7 example_pairing in
  calls (sockets q) = calls (sockets example_pairing) ++ [Disconnect 8]
  ∧ (8 ∉ tracked (on_disconnection 8 q)).
Proof.
  intros q.
  assert (supply_map example_pairing !! 7 = Some 8) as Hs
    by (vm_compute; reflexivity).
  assert (8 ≠ NO_DESCRIPTOR) as Hne by (unfold NO_DESCRIPTOR; lia).
  destruct (pair_teardown 7 8 example_pairing
              (proj1 (reachable_invariant _ _ _ example_pairing_reachable))
              (or_introl Hs) Hne)
    as (_ & _ & Hc & _ & _ & _ & [_ Hg] & _).
  split; [exact Hc | exact Hg].
Defined.

(** ** A connection from no known listener *)

Section Stray.

Variable L : LISTENERS.

Lemma on_connection_stray (timestamp d : Z) (new_demand : N) (p : PROGRAM) :
  Sockets.get_listener d (sockets p) ≠ supply_descriptor L →
  Sockets.get_listener d (sockets p) ≠ demand_descriptor L →
  ¬ (Sockets.get_listener d (sockets p) = driver_descriptor L
     ∧ driver_descriptor L ≠ NO_DESCRIPTOR) →
  on_connection L timestamp d new_demand p
  = (new_demand,
     write_log (LogForbidden 229)
       (stamp d timestamp (write_log (LogNewConnection d) p))).
Proof.
  intros Hs Hd Hv. unfold on_connection. cbv zeta.
  change (Sockets.get_listener d
            (sockets (stamp d timestamp (write_log (LogNewConnection d) p))))
    with (Sockets.get_listener d (sockets p)).
  by repeat case_decide.
Qed.

(** The disconnection of another descriptor never asks for the
    disconnection of a descriptor that is in no table. *)
Lemma on_disconnection_spares (d d' : Z) (p : PROGRAM) :
  consistent p → d ∉ tracked p →
  let q := on_disconnection d' p in
  ∃ new : list call,
    calls (sockets q) = calls (sockets p) ++ new ∧ Disconnect d ∉ new.
Proof.
  intros (_ & [H1 H2] & _) Hd. simpl.
  destruct (on_disconnection_calls d' p) as [Hc|(o & Ho & Hl & Hc)].
  - exists []. split; [by rewrite app_nil_r | apply not_elem_of_nil].
  - exists [Disconnect o]. split; [exact Hc|].
    intros [= <-]%list_elem_of_singleton. apply Hd. unfold tracked.
    destruct Hl as [Hl|Hl].
    + pose proof (H1 d' d Hl Ho) as Hr. clear H1 H2. lookups_to_dom.
      set_solver.
    + pose proof (H2 d' d Hl Ho) as Hr. clear H1 H2. lookups_to_dom.
      set_solver.
Qed.

(** C9: a connection whose listener is neither the supply listener, nor the
    demand listener, nor an enabled driver listener is given an activity
    stamp and the internal-error line of the log, and nothing else: no table
    changes, the multiplexer is asked nothing, the counter of new demand
    stays.  Being in no table it is not frozen, no later teardown of
    another descriptor asks for its disconnection, and its own disconnection
    event removes its stamp. *)
Theorem stray_connection (timestamp d : Z) (new_demand : N) (p : PROGRAM) :
  Sockets.get_listener d (sockets p) ≠ supply_descriptor L →
  Sockets.get_listener d (sockets p) ≠ demand_descriptor L →
  ¬ (Sockets.get_listener d (sockets p) = driver_descriptor L
     ∧ driver_descriptor L ≠ NO_DESCRIPTOR) →
  let q := (on_connection L timestamp d new_demand p).2 in
  (on_connection L timestamp d new_demand p).1 = new_demand
  ∧ log q = log p ++ [LogNewConnection d; LogForbidden 229]
  ∧ timestamp_map q = <[d := timestamp]> (timestamp_map p)
  ∧ (supply_map q = supply_map p ∧ demand_map q = demand_map p
     ∧ unmet_supply q = unmet_supply p ∧ unmet_demand q = unmet_demand p
     ∧ drivers q = drivers p)
  ∧ sockets q = sockets p
  ∧ (frozen_unmet p → d ∉ tracked p →
     (d ∉ tracked q) ∧ (d ∉ frozen (sockets q)))
  ∧ (∀ (q' : PROGRAM) (d' : Z), consistent q' → d ∉ tracked q' →
       ∃ new : list call,
         calls (sockets (on_disconnection d' q')) = calls (sockets q') ++ new
         ∧ Disconnect d ∉ new)
  ∧ ∀ q' : PROGRAM, timestamp_map (on_disconnection d q') !! d = None.
Proof.
  intros Hs Hd Hv.
  rewrite (on_connection_stray timestamp d new_demand p Hs Hd Hv). simpl.
  split; [done|]. split; [by rewrite <- app_assoc|]. split; [done|].
  split; [done|]. split; [done|]. split; [|split].
  - intros Hf Ht. split; [exact Ht|].
    unfold frozen_unmet in Hf. rewrite Hf. unfold tracked in Ht.
    set_solver.
  - intros q' d' Hc Ht. by apply on_disconnection_spares.
  - intros q'. by rewrite on_disconnection_timestamp_map, lookup_delete_eq.
Qed.

End Stray.

Lemma stray_connection_witness :
  let q := (on_connection example_listeners 100 7 0%N
              example_stray_arrival).2 in
  log q
  = log example_stray_arrival ++ [LogNewConnection 7; LogForbidden 229]
  ∧ tracked q = ∅.
Proof.
  intros q.
  assert (Sockets.get_listener 7 (sockets example_stray_arrival) = 99) as Hl
    by (vm_compute; reflexivity).
  destruct (stray_connection example_listeners 100 7 0%N
              example_stray_arrival)
    as (_ & Hlog & _ & (Hs & Hd & Hus & Hud & Hdr) & _).
  - rewrite Hl. vm_compute. discriminate.
  - rewrite Hl. vm_compute. discriminate.
  - rewrite Hl. vm_compute. intros [H _]. discriminate.
  - split; [exact Hlog|].
    unfold tracked. fold q in Hs, Hd, Hus, Hud, Hdr.
    rewrite Hs, Hd, Hus, Hud, Hdr. vm_compute. reflexivity.
Defined.

(** ** Leaving the loop *)

Section Shutdown.

Variable options : OPTIONS.
Variable L : LISTENERS.

Lemma signal_intake_stays_terminated (pending : list Z) (alarmed : bool)
    (p : PROGRAM) :
  terminated p = true →
  terminated (signal_intake pending alarmed p).2 = true.
Proof.
  revert alarmed p. induction pending as [|sig rest IH]; intros a p Hp;
    [done|].
  simpl. repeat case_decide; try done; by apply IH.
Qed.

(** A pending SIGINT, SIGTERM or SIGQUIT ends the run. *)
Lemma signal_intake_terminates (before after : list Z) (sig : Z)
    (alarmed : bool) (p : PROGRAM) :
  0 ∉ before → sig = SIGINT ∨ sig = SIGTERM ∨ sig = SIGQUIT →
  terminated (signal_intake (before ++ sig :: after) alarmed p).2 = true.
Proof.
  revert alarmed p. induction before as [|s before IH]; intros a p H0 Hs.
  - simpl. case_decide; [unfold SIGINT, SIGTERM, SIGQUIT in Hs; lia|].
    case_decide; [unfold SIGINT, SIGTERM, SIGQUIT, SIGALRM in *; lia|].
    case_decide; [|done]. by apply signal_intake_stays_terminated.
  - apply not_elem_of_cons in H0 as [Hne H0]. simpl.
    repeat case_decide; try done; by apply IH.
Qed.

Lemma signal_intake_status (pending : list Z) (alarmed : bool)
    (p : PROGRAM) :
  status (signal_intake pending alarmed p).2 = status p.
Proof.
  revert alarmed p. induction pending as [|sig rest IH]; intros a p; [done|].
  simpl. repeat case_decide; try done; by rewrite IH.
Qed.

(** The iteration in which the flag is found set after the signal intake. *)
Lemma iteration_stopped (e : ENV) (p : PROGRAM) :
  terminated (signal_intake (env_signals e) false p).2 = true →
  let q := iteration options L e p in
  terminated q = true
  ∧ calls (sockets q)
    = calls (sockets p)
      ++ [Disconnect (demand_descriptor L);
          Disconnect (supply_descriptor L);
          Disconnect (driver_descriptor L)]
  ∧ tables q = tables p
  ∧ queues (sockets q) = queues (sockets p)
  ∧ status q = status p.
Proof.
  intros Hstop. unfold iteration.
  pose proof (signal_intake_tables (env_signals e) false p) as Ht.
  pose proof (signal_intake_sockets (env_signals e) false p) as Hs.
  pose proof (signal_intake_status (env_signals e) false p) as Hst.
  destruct (signal_intake (env_signals e) false p) as [alarmed p1].
  simpl in *.
  assert (terminated (if alarmed then set_timer p1 else p1) = true) as ->
    by (by destruct alarmed).
  destruct alarmed; simpl; rewrite Hs, <- Ht, Hst.
  all: split; [done|]; split; [by rewrite <- !app_assoc|].
  all: split; [|by split].
  all: unfold tables; simpl; by rewrite Hs.
Qed.

(** The iteration in which [serve] fails, on a multiplexer with empty
    queues: the rest of the body finds nothing to do. *)
Lemma iteration_serve_failure (e : ENV) (p : PROGRAM) :
  let intake := signal_intake (env_signals e) false p in
  intake.1 = false → terminated intake.2 = false →
  poll_ok (env_poll e) = false → drained (sockets p) →
  iteration options L e p
  = set_terminated true
      (set_status EXIT_FAILURE (write_log LogServeError intake.2)).
Proof.
  intros intake Hal Hrun Hok (Hd & Hc & Hi). unfold iteration.
  pose proof (signal_intake_sockets (env_signals e) false p) as Hs.
  fold intake in Hs |- *. destruct intake as [alarmed p1]. simpl in *.
  subst alarmed. rewrite Hrun.
  unfold serve_and_dispatch, poll, Sockets.serve. rewrite Hok.
  rewrite <- Hs in Hd, Hc, Hi. clear Hs.
  destruct p1 as [st tm ts sm dm us ud dr sk lg n].
  destruct sk as [ls fr qd qc qi ib cs]. simpl in Hd, Hc, Hi. subst.
  simpl. unfold publish, idle_reap. simpl.
  repeat case_decide; try done; naive_solver.
Qed.

Lemma run_loop_exits_terminated (envs rest : list ENV) (p q : PROGRAM) :
  run_loop options L envs p = (q, rest, true) → terminated q = true.
Proof.
  revert p. induction envs as [|e envs IH]; intros p; simpl; [done|].
  destruct (terminated (iteration options L e p)) eqn:E.
  - by intros [= <- _].
  - apply IH.
Qed.

(** C1, as the loop is written: once the signal intake of an iteration
    leaves the flag set, be it by SIGINT, SIGTERM or SIGQUIT, that iteration
    asks for the disconnection of the three listening descriptors and does
    nothing else; when [serve] fails, the iteration sets the flag and the
    failure status, and, the queues being empty, asks nothing of the
    multiplexer.  Either way that iteration is the last: the loop is left at
    its end without a further pass.  The loop is left only with the flag
    set, and in a run with orderly polls the queues are then empty. *)
Theorem shutdown_is_immediate (e : ENV) (envs : list ENV) (p : PROGRAM) :
  let intake := signal_intake (env_signals e) false p in
  let q := iteration options L e p in
  (∀ (before after : list Z) (sig : Z),
     env_signals e = before ++ sig :: after → 0 ∉ before →
     sig = SIGINT ∨ sig = SIGTERM ∨ sig = SIGQUIT →
     terminated intake.2 = true)
  ∧ (terminated intake.2 = true →
     terminated q = true
     ∧ calls (sockets q)
       = calls (sockets p)
         ++ [Disconnect (demand_descriptor L);
             Disconnect (supply_descriptor L);
             Disconnect (driver_descriptor L)]
     ∧ tables q = tables p
     ∧ queues (sockets q) = queues (sockets p))
  ∧ (intake.1 = false → terminated intake.2 = false →
     poll_ok (env_poll e) = false → drained (sockets p) →
     terminated q = true ∧ status q = EXIT_FAILURE
     ∧ sockets q = sockets p ∧ tables q = tables p)
  ∧ (terminated q = true →
     run_loop options L (e :: envs) p = (q, envs, true))
  ∧ (terminated q = false →
     run_loop options L (e :: envs) p = run_loop options L envs q)
  ∧ (∀ (envs' rest : list ENV) (q' : PROGRAM),
       run_loop options L envs' p = (q', rest, true) → terminated q' = true)
  ∧ (reachable options L p → orderly p (env_poll e) → drained (sockets q)).
Proof.
  intros intake q. split; [|split; [|split; [|split; [|split; [|split]]]]].
  - intros before after sig Heq H0 Hsig. subst intake. rewrite Heq.
    by apply signal_intake_terminates.
  - intros Hstop.
    destruct (iteration_stopped e p Hstop) as (H1 & H2 & H3 & H4 & _).
    by repeat split.
  - intros Hal Hrun Hok Hdr. subst q.
    rewrite (iteration_serve_failure e p Hal Hrun Hok Hdr). simpl.
    pose proof (signal_intake_sockets (env_signals e) false p) as Hs.
    pose proof (signal_intake_tables (env_signals e) false p) as Ht.
    fold intake in Hs, Ht. split; [done|]. split; [done|].
    split; [exact Hs|]. rewrite <- Ht. unfold tables. simpl. done.
  - intros Hq. simpl. fold q. by rewrite Hq.
  - intros Hq. simpl. fold q. by rewrite Hq.
  - intros envs' rest q'. apply run_loop_exits_terminated.
  - intros Hp Ho.
    apply (iteration_invariant options L e p); [|exact Ho].
    by apply (reachable_invariant options L).
Qed.

End Shutdown.

(** C1, as the claim states it, fails.  In the first run the iteration that
    takes SIGTERM asks for the disconnection of the three listeners and the
    loop is left at once: the third poll, with the disconnection of 7, is
    never made, no further iteration runs, and 7 is still waiting.  In the
    second run [serve] fails and the loop is left at the end of that
    iteration without any request to disconnect a listener. *)
Lemma shutdown_counterexample :
  (let '(p, rest, exited) :=
     run example_options example_listeners example_sigterm in
   exited = true
   ∧ rest = [mkENV [] (mkPOLL true [] [7] []) 102]
   ∧ unmet_supply p = {[7]}
   ∧ calls (sockets p)
     = [Freeze 7; Disconnect 4; Disconnect 3; Disconnect 5])
  ∧ (let '(p, rest, exited) :=
       run example_options example_listeners example_serve_fails in
     exited = true
     ∧ rest = [mkENV [] (mkPOLL true [] [] []) 101]
     ∧ terminated p = true
     ∧ calls (sockets p) = []).
Proof. vm_compute. by repeat split. Qed.

(** ** The delta a driver misses *)

(** C4, at a failing input: driver 7 connected at second 100 in an iteration
    without publication pass, so its stamp 101 stayed ahead of the clock;
    in the next iteration, still at second 100, one demander is queued
    ([new_demand] = 1) and the pass skips driver 7, which was there before
    the iteration began: the only request of the iteration is the freeze of
    the demander.  One second later the same iteration sends the delta. *)
Theorem late_sentinel_skips_delta :
  7 ∈ drivers example_driver
  ∧ timestamp_map example_driver !! 7 = Some 101
  ∧ calls (sockets example_driver) = [Writef 7 (Sockets.format_lu 0)]
  ∧ unmet_demand example_driver = ∅
  ∧ unmet_demand example_demand_same_second = {[8]}
  ∧ calls (sockets example_demand_same_second)
    = calls (sockets example_driver) ++ [Freeze 8]
  ∧ timestamp_map example_demand_same_second !! 7 = Some 100
  ∧ calls (sockets example_demand_next_second)
    = calls (sockets example_driver)
      ++ [Freeze 8; Writef 7 (Sockets.format_lu 1)].
Proof.
  vm_compute. by repeat split.
Qed.

(** ** The control state *)

Section Control.

Variable options : OPTIONS.
Variable L : LISTENERS.

Lemma on_disconnection_control (d : Z) (p : PROGRAM) :
  control (on_disconnection d p) = control p.
Proof. unfold on_disconnection. cbv zeta. by step_cases. Qed.

Lemma drain_disconnections_control (queue : list Z) (p : PROGRAM) :
  control (drain_disconnections queue p) = control p.
Proof.
  revert p. induction queue as [|d0 queue IH]; intros p; simpl;
    unfold Sockets.next_disconnection;
    destruct (disconnections (sockets p)) as [|d q]; try done.
  simpl. case_decide; [done|]. by rewrite IH, on_disconnection_control.
Qed.

Lemma on_connection_control (timestamp d : Z) (new_demand : N)
    (p : PROGRAM) :
  control (on_connection L timestamp d new_demand p).2 = control p.
Proof. unfold on_connection. cbv zeta. by step_cases. Qed.

Lemma drain_connections_control (timestamp : Z) (queue : list Z)
    (new_demand : N) (p : PROGRAM) :
  control (drain_connections L timestamp queue new_demand p).2 = control p.
Proof.
  revert new_demand p. induction queue as [|d0 queue IH]; intros nd p; simpl;
    unfold Sockets.next_connection;
    destruct (connections (sockets p)) as [|d q]; try done.
  simpl. case_decide; [done|].
  set (p1 := set_sockets _ p).
  pose proof (on_connection_control timestamp d nd p1) as Hstep.
  destruct (on_connection L timestamp d nd p1) as [nd' p2].
  simpl in Hstep. by rewrite IH.
Qed.

Lemma publish_control (timestamp : Z) (new_demand : N) (alarmed : bool)
    (p : PROGRAM) :
  control (publish options timestamp new_demand alarmed p) = control p.
Proof.
  unfold publish. case_decide; [|done].
  generalize (elements (drivers p)). intros l. revert p.
  induction l as [|d l IH]; intros p; [done|].
  simpl. rewrite IH. unfold publish_to.
  destruct (index _ _) as [last m]. by repeat case_decide.
Qed.

Lemma drain_incoming_control (timestamp : Z) (queue : list Z)
    (p : PROGRAM) :
  control (drain_incoming options timestamp queue p) = control p.
Proof.
  revert p. induction queue as [|d0 queue IH]; intros p; simpl;
    unfold Sockets.next_incoming;
    destruct (incoming (sockets p)) as [|d q]; try done.
  simpl. case_decide; [done|]. rewrite IH.
  unfold on_incoming. simpl. repeat case_decide; try done.
  by destruct (verbose options).
Qed.

Lemma idle_reap_control (timestamp : Z) (alarmed : bool) (p : PROGRAM) :
  control (idle_reap options timestamp alarmed p) = control p.
Proof.
  unfold idle_reap. case_decide; [|done].
  generalize (map_to_list (timestamp_map p)). intros l. revert p.
  induction l as [|e l IH]; intros p; [done|].
  simpl. rewrite IH. unfold reap_one. case_decide; [|done].
  by destruct (verbose options).
Qed.

(** From the poll on, the iteration leaves the control state as the poll
    left it. *)
Lemma serve_and_dispatch_control (alarmed : bool) (e : ENV) (p : PROGRAM) :
  control (serve_and_dispatch options L alarmed e p)
  = control (poll alarmed (env_poll e) p).
Proof.
  unfold serve_and_dispatch.
  set (p1 := poll alarmed (env_poll e) p).
  set (p2 := drain_disconnections (disconnections (sockets p1)) p1).
  pose proof (drain_connections_control (env_timestamp e)
                (connections (sockets p2)) 0%N p2) as H3.
  destruct (drain_connections L (env_timestamp e)
              (connections (sockets p2)) 0%N p2) as [new_demand p3].
  simpl in H3.
  rewrite idle_reap_control, drain_incoming_control, publish_control, H3.
  apply drain_disconnections_control.
Qed.

Lemma signal_intake_timers (pending : list Z) (alarmed : bool)
    (p : PROGRAM) :
  timers (signal_intake pending alarmed p).2 = timers p.
Proof.
  revert alarmed p. induction pending as [|sig rest IH]; intros a p; [done|].
  simpl. repeat case_decide; try done; by rewrite IH.
Qed.

(** The flag is raised by the signal intake only for a pending SIGINT,
    SIGTERM or SIGQUIT. *)
Lemma signal_intake_raised (pending : list Z) (alarmed : bool)
    (p : PROGRAM) :
  terminated p = false →
  terminated (signal_intake pending alarmed p).2 = true →
  ∃ sig : Z, sig ∈ pending ∧ (sig = SIGINT ∨ sig = SIGTERM ∨ sig = SIGQUIT).
Proof.
  revert alarmed p. induction pending as [|sig rest IH]; intros a p Hp Hq.
  { simpl in Hq. congruence. }
  simpl in Hq. repeat case_decide.
  - simpl in Hq. congruence.
  - destruct (IH _ _ Hp Hq) as (s & Hs & Hk). exists s. split; [by right|done].
  - exists sig. split; [by left|done].
  - apply IH in Hq as (s & Hs & Hk); [|exact Hp].
    exists s. split; [by right|done].
Qed.

(** The alarm flag of the intake is set only by a pending SIGALRM. *)
Lemma signal_intake_alarmed (pending : list Z) (p : PROGRAM) :
  (signal_intake pending false p).1 = true → SIGALRM ∈ pending.
Proof.
  assert (∀ a, (signal_intake pending a p).1 = true →
               a = true ∨ SIGALRM ∈ pending) as H.
  { revert p. induction pending as [|sig rest IH]; intros p a Ha.
    { by left. }
    simpl in Ha. repeat case_decide.
    - by left.
    - right. subst sig. by left.
    - destruct (IH _ _ Ha) as [?|?]; [by left|right; by right].
    - destruct (IH _ _ Ha) as [?|?]; [by left|right; by right]. }
  intros Ha. by destruct (H false Ha).
Qed.

(** The loop ends only for a reason: an iteration that starts with the flag
    down ends with the flag up only when SIGINT, SIGTERM or SIGQUIT was
    pending, or when [serve] failed, in which case the status is the failure
    status. *)
Theorem flag_raised_for_cause (e : ENV) (p : PROGRAM) :
  terminated p = false →
  terminated (iteration options L e p) = true →
  (∃ sig : Z, sig ∈ env_signals e
              ∧ (sig = SIGINT ∨ sig = SIGTERM ∨ sig = SIGQUIT))
  ∨ (poll_ok (env_poll e) = false
     ∧ status (iteration options L e p) = EXIT_FAILURE).
Proof.
  intros Hp. unfold iteration.
  pose proof (signal_intake_raised (env_signals e) false p Hp) as Hsig.
  destruct (signal_intake (env_signals e) false p) as [alarmed p1].
  simpl in Hsig.
  assert (terminated (if alarmed then set_timer p1 else p1) = terminated p1)
    as Ht by (by destruct alarmed).
  rewrite Ht. destruct (terminated p1) eqn:E; [intros _; left; by apply Hsig|].
  pose proof (serve_and_dispatch_control alarmed e
                (if alarmed then set_timer p1 else p1)) as Hc.
  unfold control in Hc. injection Hc as Hst Htm _. rewrite Hst, Htm.
  unfold poll, Sockets.serve.
  destruct alarmed; simpl; [congruence|].
  destruct (poll_ok (env_poll e)); simpl; [congruence|]. intros _. by right.
Qed.

(** The exit status changes in an iteration only when [serve] fails, and
    then to the failure status. *)
Theorem status_set_by_failed_serve (e : ENV) (p : PROGRAM) :
  status (iteration options L e p) = status p
  ∨ (poll_ok (env_poll e) = false
     ∧ (signal_intake (env_signals e) false p).1 = false
     ∧ status (iteration options L e p) = EXIT_FAILURE).
Proof.
  unfold iteration.
  pose proof (signal_intake_status (env_signals e) false p) as Hs.
  destruct (signal_intake (env_signals e) false p) as [alarmed p1].
  simpl in Hs.
  assert (status (if alarmed then set_timer p1 else p1) = status p) as Ht
    by (by destruct alarmed).
  destruct (terminated (if alarmed then set_timer p1 else p1)).
  { left. by rewrite <- Ht. }
  pose proof (serve_and_dispatch_control alarmed e
                (if alarmed then set_timer p1 else p1)) as Hc.
  unfold control in Hc. injection Hc as Hst _ _. rewrite Hst.
  unfold poll, Sockets.serve.
  destruct alarmed; simpl; [by left|].
  destruct (poll_ok (env_poll e)); simpl; [by left|]. by right.
Qed.

(** The one-second timer is armed again in an iteration exactly when the
    signal intake took a SIGALRM, and that takes a pending SIGALRM. *)
Theorem timer_rearmed_on_alarm (e : ENV) (p : PROGRAM) :
  let alarmed := (signal_intake (env_signals e) false p).1 in
  timers (iteration options L e p)
  = (timers p + (if alarmed then 1 else 0))%nat
  ∧ (alarmed = true → SIGALRM ∈ env_signals e).
Proof.
  split; [|apply signal_intake_alarmed].
  unfold iteration.
  pose proof (signal_intake_timers (env_signals e) false p) as Hs.
  destruct (signal_intake (env_signals e) false p) as [alarmed p1].
  simpl in Hs |- *.
  assert (timers (if alarmed then set_timer p1 else p1)
          = (timers p + (if alarmed then 1 else 0))%nat) as Ht
    by (destruct alarmed; simpl; lia).
  destruct (terminated (if alarmed then set_timer p1 else p1)); [done|].
  pose proof (serve_and_dispatch_control alarmed e
                (if alarmed then set_timer p1 else p1)) as Hc.
  unfold control in Hc. injection Hc as _ _ Htm. rewrite Htm, <- Ht.
  unfold poll, Sockets.serve.
  destruct alarmed; simpl; [done|]. by destruct (poll_ok (env_poll e)).
Qed.

End Control.

Lemma flag_raised_for_cause_witness :
  ∃ sig : Z, sig ∈ [SIGTERM]
             ∧ (sig = SIGINT ∨ sig = SIGTERM ∨ sig = SIGQUIT).
Proof.
  destruct (flag_raised_for_cause example_options example_listeners
              (mkENV [SIGTERM] (mkPOLL true [] [] []) 100)
              (startup example_options example_listeners))
    as [H|[H _]].
  - vm_compute. reflexivity.
  - vm_compute. reflexivity.
  - exact H.
  - discriminate H.
Defined.

(** ** Before the loop *)

(** With the exit flag set, [run] returns at once with the success status
    and asks nothing of the multiplexer.  When the supply or the demand port
    cannot be listened on, the loop is entered with the flag set: its first
    iteration asks for the disconnection of the three listening descriptors,
    nothing is ever tracked, and [run] returns the failure status. *)
Theorem run_prelude (options : OPTIONS) (listened : LISTENERS) (e : ENV)
    (envs : list ENV) :
  (exit_flag options = true →
   run options listened envs = (set_status EXIT_SUCCESS blank, envs, true))
  ∧ (exit_flag options = false →
     supply_descriptor listened = NO_DESCRIPTOR
     ∨ demand_descriptor listened = NO_DESCRIPTOR →
     let L := listen_all options listened in
     let q := iteration options L e (startup options L) in
     run options listened (e :: envs) = (q, envs, true)
     ∧ status q = EXIT_FAILURE
     ∧ calls (sockets q)
       = [Disconnect (demand_descriptor L); Disconnect (supply_descriptor L);
          Disconnect (driver_descriptor L)]
     ∧ tracked q = ∅).
Proof.
  split.
  - intros Hx. unfold run. by rewrite Hx.
  - intros Hx Hbind L q. unfold run. rewrite Hx. fold L.
    assert (startup options L
            = set_timer (set_status EXIT_FAILURE (set_terminated true blank)))
      as Hst.
    { unfold startup. case_decide; [done|]. exfalso. subst L. simpl in *.
      tauto. }
    assert (terminated
              (signal_intake (env_signals e) false (startup options L)).2
            = true) as Hstop.
    { apply signal_intake_stays_terminated. by rewrite Hst. }
    destruct (iteration_stopped options L e (startup options L) Hstop)
      as (Ht & Hc & Htb & _ & Hs).
    fold q in Ht, Hc, Htb, Hs. simpl. fold q. rewrite Ht.
    split; [done|]. split; [by rewrite Hs, Hst|].
    split; [by rewrite Hc, Hst|].
    rewrite (tables_tracked _ _ Htb), Hst. unfold tracked. simpl.
    set_solver.
Qed.

(** ** The tables along a run *)

(** After every iteration of a run with orderly polls, no descriptor is in
    two of the five tables, [NO_DESCRIPTOR] is in none, and the three event
    queues of the multiplexer are empty. *)
Theorem tables_separate (options : OPTIONS) (L : LISTENERS) (p : PROGRAM) :
  reachable options L p →
  separate p ∧ (NO_DESCRIPTOR ∉ tracked p) ∧ drained (sockets p).
Proof.
  intros ((Hs & _ & HN) & _ & Hd)%reachable_invariant.
  split; [exact Hs|]. split; [exact HN | exact Hd].
Qed.

Lemma tables_separate_witness :
  dom (supply_map example_pairing) ## unmet_demand example_pairing.
Proof.
  destruct (tables_separate example_options example_listeners example_pairing
              example_pairing_reachable) as ((H & _) & _).
  revert H. generalize (dom (supply_map example_pairing)).
  generalize (dom (demand_map example_pairing)),
    (unmet_supply example_pairing), (unmet_demand example_pairing),
    (drivers example_pairing).
  set_solver.
Defined.

(** ** Forwarding *)

Section Forwarding.

Variable options : OPTIONS.
Variable L : LISTENERS.

(** Bytes read from a descriptor that is no driver go to its peer, whole and
    in one piece, and both ends are stamped; without a peer they are dropped
    and the internal-error line is logged.  Either way the read buffer is
    left empty and no table changes. *)
Theorem incoming_forwarding (timestamp d : Z) (p : PROGRAM) :
  d ∉ drivers p →
  let q := on_incoming options timestamp d p in
  let bytes := default [] (inbuf (sockets p) !! d) in
  (forward_to d p ≠ NO_DESCRIPTOR →
   calls (sockets q)
   = calls (sockets p) ++ [AppendOutgoing (forward_to d p) bytes]
   ∧ timestamp_map q !! forward_to d p = Some timestamp)
  ∧ (forward_to d p = NO_DESCRIPTOR →
     calls (sockets q) = calls (sockets p)
     ∧ log q = log p ++ [LogForbidden 274])
  ∧ inbuf (sockets q) !! d = Some []
  ∧ timestamp_map q !! d = Some timestamp
  ∧ tables q = tables p.
Proof.
  intros Hd q bytes.
  split; [|split; [|split; [|split]]].
  - intros Hf. subst q bytes. unfold on_incoming, forward_to in *. simpl.
    case_decide; [done|].
    destruct (supply_map p !! d) as [o|]; [|destruct (demand_map p !! d)];
      simpl in *; try done.
    all: destruct (decide (_ = NO_DESCRIPTOR)); [done|].
    all: destruct (verbose options); simpl; split; try done.
    all: rewrite lookup_insert; destruct (decide (d = _)); try done.
    all: by rewrite lookup_insert_eq.
  - intros Hf. subst q. unfold on_incoming, forward_to in *. simpl.
    case_decide; [done|].
    destruct (supply_map p !! d) as [o|]; [|destruct (demand_map p !! d)];
      simpl in *; subst; try case_decide; done.
  - subst q. unfold on_incoming. simpl. repeat case_decide; simpl;
      try (by rewrite lookup_insert_eq).
    destruct (verbose options); simpl; by rewrite lookup_insert_eq.
  - apply on_incoming_stamp.
  - apply on_incoming_tables.
Qed.

End Forwarding.

Lemma incoming_forwarding_witness :
  calls (sockets (on_incoming example_options 102 7 example_talk))
  = calls (sockets example_talk) ++ [AppendOutgoing 8 [x61; x62; x63]].
Proof.
  assert (7 ∉ drivers example_talk) as Hd by (vm_compute; set_solver).
  destruct (incoming_forwarding example_options 102 7 example_talk Hd)
    as (H & _).
  assert (forward_to 7 example_talk = 8) as Hf by (vm_compute; reflexivity).
  assert (default [] (inbuf (sockets example_talk) !! 7) = [x61; x62; x63])
    as Hb by (vm_compute; reflexivity).
  rewrite Hf, Hb in H. apply H. unfold NO_DESCRIPTOR. lia.
Defined.

(** ** Pairing *)

Section Pairing.

Variable options : OPTIONS.
Variable L : LISTENERS.

(** A supplier that connects while demand waits is paired at once with one
    of the waiting demanders: both peer entries are written, the demander
    leaves the waiting set and is unfrozen, both ends are stamped, and the
    counter of new demand stays. *)
Theorem supply_meets_demand (timestamp d : Z) (new_demand : N)
    (p : PROGRAM) :
  Sockets.get_listener d (sockets p) = supply_descriptor L →
  unmet_demand p ≠ ∅ →
  let q := (on_connection L timestamp d new_demand p).2 in
  ∃ other : Z,
    other ∈ unmet_demand p
    ∧ supply_map q = <[d := other]> (supply_map p)
    ∧ demand_map q = <[other := d]> (demand_map p)
    ∧ unmet_demand q = unmet_demand p ∖ {[other]}
    ∧ unmet_supply q = unmet_supply p
    ∧ calls (sockets q) = calls (sockets p) ++ [Unfreeze other]
    ∧ timestamp_map q !! other = Some timestamp
    ∧ (on_connection L timestamp d new_demand p).1 = new_demand.
Proof.
  intros Hl Hne. unfold on_connection. cbv zeta.
  change (Sockets.get_listener d
            (sockets (stamp d timestamp (write_log (LogNewConnection d) p))))
    with (Sockets.get_listener d (sockets p)).
  rewrite Hl. destruct (decide (_ = _)) as [_|]; [|done].
  change (unmet_demand
            (stamp d timestamp (write_log (LogNewConnection d) p)))
    with (unmet_demand p).
  destruct (elements (unmet_demand p)) as [|other rest] eqn:E.
  { by apply elements_empty_inv, leibniz_equiv in E. }
  exists other. simpl. split.
  { apply elem_of_elements. rewrite E. by left. }
  by rewrite lookup_insert_eq.
Qed.

(** A demander that connects while supply waits is paired at once with one
    of the waiting suppliers, and is not counted as new demand. *)
Theorem demand_meets_supply (timestamp d : Z) (new_demand : N)
    (p : PROGRAM) :
  Sockets.get_listener d (sockets p) = demand_descriptor L →
  demand_descriptor L ≠ supply_descriptor L →
  unmet_supply p ≠ ∅ →
  let q := (on_connection L timestamp d new_demand p).2 in
  ∃ other : Z,
    other ∈ unmet_supply p
    ∧ demand_map q = <[d := other]> (demand_map p)
    ∧ supply_map q = <[other := d]> (supply_map p)
    ∧ unmet_supply q = unmet_supply p ∖ {[other]}
    ∧ unmet_demand q = unmet_demand p
    ∧ calls (sockets q) = calls (sockets p) ++ [Unfreeze other]
    ∧ timestamp_map q !! other = Some timestamp
    ∧ (on_connection L timestamp d new_demand p).1 = new_demand.
Proof.
  intros Hl Hds Hne. unfold on_connection. cbv zeta.
  change (Sockets.get_listener d
            (sockets (stamp d timestamp (write_log (LogNewConnection d) p))))
    with (Sockets.get_listener d (sockets p)).
  rewrite Hl. destruct (decide (_ = supply_descriptor L)) as [|_]; [done|].
  destruct (decide (_ = _)) as [_|]; [|done].
  change (unmet_supply
            (stamp d timestamp (write_log (LogNewConnection d) p)))
    with (unmet_supply p).
  destruct (elements (unmet_supply p)) as [|other rest] eqn:E.
  { by apply elements_empty_inv, leibniz_equiv in E. }
  exists other. simpl. split.
  { apply elem_of_elements. rewrite E. by left. }
  by rewrite lookup_insert_eq.
Qed.

(** The disconnection of a waiting descriptor or of a driver takes it out
    of its set and asks nothing of the multiplexer; the peer maps stay. *)
Theorem lone_disconnection (d : Z) (p : PROGRAM) :
  separate p → d ∈ unmet_supply p ∪ unmet_demand p ∪ drivers p →
  let q := on_disconnection d p in
  calls (sockets q) = calls (sockets p)
  ∧ supply_map q = supply_map p ∧ demand_map q = demand_map p
  ∧ unmet_supply q = unmet_supply p ∖ {[d]}
  ∧ unmet_demand q = unmet_demand p ∖ {[d]}
  ∧ drivers q = drivers p ∖ {[d]}
  ∧ timestamp_map q = delete d (timestamp_map p).
Proof.
  unfold separate, on_disconnection. intros Hsep Hd. cbv zeta.
  step_cases.
  all: try match goal with
           | H : _ !! _ = Some _ |- _ => exfalso; lookups_to_dom; set_solver
           end.
  all: split_and!; try done; set_solver.
Qed.

End Pairing.

Lemma supply_meets_demand_witness :
  ∃ other : Z,
    other ∈ unmet_demand example_supply_arrival
    ∧ supply_map
        (on_connection example_listeners 102 10 0%N
           example_supply_arrival).2
      = <[10 := other]> (supply_map example_supply_arrival).
Proof.
  destruct (supply_meets_demand example_listeners 102 10 0%N
              example_supply_arrival) as (o & Ho & Hs & _).
  - vm_compute. reflexivity.
  - assert (unmet_demand example_supply_arrival = {[9]}) as ->
      by (vm_compute; reflexivity).
    set_solver.
  - exists o. by split.
Defined.

Lemma demand_meets_supply_witness :
  ∃ other : Z,
    other ∈ unmet_supply example_demand_arrival
    ∧ calls (sockets (on_connection example_listeners 101 8 0%N
                        example_demand_arrival).2)
      = calls (sockets example_demand_arrival) ++ [Unfreeze other].
Proof.
  destruct (demand_meets_supply example_listeners 101 8 0%N
              example_demand_arrival) as (o & Ho & _ & _ & _ & _ & Hc & _).
  - vm_compute. reflexivity.
  - vm_compute. discriminate.
  - assert (unmet_supply example_demand_arrival = {[7]}) as ->
      by (vm_compute; reflexivity).
    set_solver.
  - exists o. by split.
Defined.

Lemma lone_disconnection_witness :
  unmet_demand (on_disconnection 9 example_pairing)
  = unmet_demand example_pairing ∖ {[9]}.
Proof.
  destruct (lone_disconnection 9 example_pairing) as (_ & _ & _ & _ & H & _).
  - apply (reachable_invariant example_options example_listeners),
      example_pairing_reachable.
  - assert (unmet_demand example_pairing = {[9]}) as ->
      by (vm_compute; reflexivity).
    set_solver.
  - exact H.
Defined.

(** ** What the publication pass sends *)

Section Reports.

Variable options : OPTIONS.

(** Without new demand, a driver whose stamp is not ahead of the clock is
    sent the backlog when the driver period is set and has elapsed since its
    stamp, and its stamp is renewed; otherwise it is sent nothing and its
    stamp stays. *)
Theorem periodic_report (timestamp driver last : Z) (p : PROGRAM) :
  timestamp_map p !! driver = Some last → last <= timestamp →
  clock_range timestamp → clock_range last →
  let q := publish_to options timestamp 0%N driver p in
  (driver_period options ≠ 0 ∧ timestamp - last >= driver_period options →
   calls (sockets q)
   = calls (sockets p)
     ++ [Writef driver
           (Sockets.format_lu (N.of_nat (size (unmet_demand p))))]
   ∧ timestamp_map q !! driver = Some timestamp)
  ∧ (driver_period options = 0 ∨ timestamp - last < driver_period options →
     q = p).
Proof.
  intros Hl Hle Ht Hlast. unfold publish_to, index. rewrite Hl.
  rewrite (wrap64_sub timestamp last Ht Hlast).
  destruct (decide (last > timestamp)); [lia|].
  destruct (decide (0%N = 0%N)); [|done].
  destruct (decide (driver_period options = 0
                    ∨ timestamp - last < driver_period options))
    as [Hskip|Hdue]; simpl.
  - split; [intros [? ?]; exfalso; lia|]. intros _. by destruct p.
  - split; [|intros ?; contradiction]. intros _.
    by rewrite lookup_insert_eq.
Qed.

Lemma publish_pass_delta (timestamp : Z) (new_demand : N) (l : list Z)
    (d last : Z) (p : PROGRAM) :
  NoDup l → d ∈ l → new_demand ≠ 0%N →
  timestamp_map p !! d = Some last → last <= timestamp →
  let q := foldl (λ p driver,
                    publish_to options timestamp new_demand driver p) p l in
  timestamp_map q !! d = Some timestamp
  ∧ ∃ new : list call,
      calls (sockets q) = calls (sockets p) ++ new
      ∧ Writef d (Sockets.format_lu new_demand) ∈ new
      ∧ ∀ text : string, Writef d text ∈ new →
                         text = Sockets.format_lu new_demand.
Proof.
  revert p. induction l as [|x l IH]; intros p Hnd Hin Hne Hl Hle; simpl.
  { by apply elem_of_nil in Hin. }
  apply NoDup_cons in Hnd as [Hx Hnd].
  destruct (decide (x = d)) as [->|Hxd].
  - rewrite (publish_to_delta options timestamp new_demand d last p Hl Hle
               Hne).
    split.
    + rewrite publish_pass_timestamp by done. simpl.
      by rewrite lookup_insert_eq.
    + destruct (publish_pass_calls options timestamp new_demand l
                  (stamp d timestamp
                     (on_sockets (Sockets.writef_lu d new_demand) p)))
        as (new & Hnew & Hall).
      exists (Writef d (Sockets.format_lu new_demand) :: new).
      split; [by rewrite Hnew; simpl; rewrite <- app_assoc|].
      split; [by left|].
      intros text [Heq|Hw]%elem_of_cons; [by simplify_eq|].
      destruct (Hall _ Hw) as (y & n & Heq & Hy & _). by simplify_eq.
  - apply elem_of_cons in Hin as [->|Hin]; [done|].
    assert (timestamp_map (publish_to options timestamp new_demand x p) !! d
            = Some last) as Hl'
      by (by rewrite publish_to_timestamp).
    destruct (IH _ Hnd Hin Hne Hl' Hle) as (Ht & new & Hnew & Hmem & Hall).
    split; [exact Ht|].
    destruct (publish_to_calls options timestamp new_demand x p)
      as [Hc|(n & Hc & Hn)].
    + exists new. split; [by rewrite Hnew, Hc|]. by split.
    + exists (Writef x (Sockets.format_lu n) :: new).
      split; [by rewrite Hnew, Hc, <- app_assoc|].
      split; [by right|].
      intros text [Heq|Hw]%elem_of_cons; [by simplify_eq|].
      by apply Hall.
Qed.

(** With new demand, the pass sends the delta to every driver whose stamp
    is not ahead of the clock, sends it no other line, and renews its
    stamp. *)
Theorem delta_reaches_driver (timestamp : Z) (new_demand : N)
    (alarmed : bool) (d last : Z) (p : PROGRAM) :
  d ∈ drivers p → new_demand ≠ 0%N →
  timestamp_map p !! d = Some last → last <= timestamp →
  let q := publish options timestamp new_demand alarmed p in
  timestamp_map q !! d = Some timestamp
  ∧ ∃ new : list call,
      calls (sockets q) = calls (sockets p) ++ new
      ∧ Writef d (Sockets.format_lu new_demand) ∈ new
      ∧ ∀ text : string, Writef d text ∈ new →
                         text = Sockets.format_lu new_demand.
Proof.
  intros Hd Hne Hl Hle. unfold publish.
  destruct (decide (new_demand ≠ 0%N ∨ alarmed = true)) as [_|Hno].
  - apply (publish_pass_delta _ _ _ d last); try done.
    + apply NoDup_elements.
    + by apply elem_of_elements.
  - exfalso. apply Hno. by left.
Qed.

End Reports.

Lemma periodic_report_witness :
  calls (sockets (publish_to example_options 111 0%N 7 example_driver))
  = calls (sockets example_driver) ++ [Writef 7 (Sockets.format_lu 0%N)].
Proof.
  destruct (periodic_report example_options 111 7 101 example_driver)
    as (H & _).
  - vm_compute. reflexivity.
  - lia.
  - unfold clock_range. lia.
  - unfold clock_range. lia.
  - destruct H as [H _].
    + split; [vm_compute; discriminate|]. vm_compute. discriminate.
    + assert (unmet_demand example_driver = ∅) as Hu
        by (vm_compute; reflexivity).
      by rewrite Hu in H.
Defined.

Lemma delta_reaches_driver_witness :
  timestamp_map (publish example_options 101 1%N false example_driver) !! 7
  = Some 101.
Proof.
  destruct (delta_reaches_driver example_options 101 1%N false 7 101
              example_driver) as (H & _).
  - assert (drivers example_driver = {[7]}) as ->
      by (vm_compute; reflexivity).
    set_solver.
  - discriminate.
  - vm_compute. reflexivity.
  - lia.
  - exact H.
Defined.

(** ** The interval timer and the log buffer *)

(** [set_timer] splits the microseconds into whole seconds and a rest below
    one second, and arms a one-shot timer: the interval is zero, which is
    why the loop arms it again after every alarm. *)
Theorem set_timer_splits (usec : Z) :
  0 <= usec →
  let t := Timer.set_timer usec in
  it_value_sec t * 1000000 + it_value_usec t = usec
  ∧ 0 <= it_value_usec t < 1000000
  ∧ 0 <= it_value_sec t
  ∧ it_interval_sec t = 0 ∧ it_interval_usec t = 0.
Proof.
  intros Hu. simpl.
  pose proof (Z.div_mod usec 1000000 ltac:(lia)) as Hdm.
  pose proof (Z.mod_pos_bound usec 1000000 ltac:(lia)) as Hm.
  pose proof (Z.div_pos usec 1000000 Hu ltac:(lia)) as Hd.
  lia.
Qed.

Lemma set_timer_splits_witness :
  it_value_sec (Timer.set_timer USEC_PER_SEC) * 1000000
  + it_value_usec (Timer.set_timer USEC_PER_SEC) = USEC_PER_SEC.
Proof.
  apply (set_timer_splits USEC_PER_SEC). unfold USEC_PER_SEC. lia.
Defined.

(** The buffer loop formats a text of any length whole: when [vsnprintf]
    reports the length and [realloc] succeeds, the loop ends after one pass
    in the initial buffer if the text and its terminator fit, after two
    passes in a buffer of exactly the length plus one otherwise; when the
    one reallocation fails, the line is dropped.  The length is an [int]
    below [INT_MAX], so that the length plus one is an [int] too. *)
Theorem format_loop_fits (fuel : nat) (buffered : Z) (realloc : Z → bool)
    (size : Z) :
  0 <= buffered < 2 ^ 31 - 1 →
  (buffered < size →
   format_loop (S fuel) buffered realloc size 0 = Formatted size 1)
  ∧ (size <= buffered → realloc (buffered + 1) = true →
     format_loop (S (S fuel)) buffered realloc size 0
     = Formatted (buffered + 1) 2)
  ∧ (size <= buffered → realloc (buffered + 1) = false →
     format_loop (S fuel) buffered realloc size 0 = Dropped).
Proof.
  intros Hb. split; [|split].
  - intros Hlt. simpl. case_decide; [done|lia].
  - intros Hge Hr. simpl.
    case_decide; [lia|]. case_decide; [|lia]. rewrite Hr.
    case_decide; [done|lia].
  - intros Hge Hr. simpl.
    case_decide; [lia|]. case_decide; [|lia]. by rewrite Hr.
Qed.

Lemma format_loop_fits_witness :
  format_loop 2 2000 (λ _, true) 1024 0 = Formatted 2001 2.
Proof.
  destruct (format_loop_fits 0 2000 (λ _, true) 1024) as (_ & H & _);
    [lia|].
  apply H; [lia|reflexivity].
Defined.

Lemma format_loop_error_step (fuel : nat) (buffered : Z)
    (realloc : Z → bool) (size : Z) (passes : nat) :
  buffered < 0 →
  format_loop (S fuel) buffered realloc size passes
  = if realloc (size * 2) then
      format_loop fuel buffered realloc (size * 2) (S passes)
    else Dropped.
Proof. intros Hb. simpl. case_decide; [lia|]. case_decide; [lia|done]. Qed.

(** While [vsnprintf] reports an error the loop doubles the buffer, pass
    after pass, for as long as [realloc] succeeds: when the first [k]
    doublings succeed and the next one fails, the line is dropped at that
    point, after [k + 1] passes, and nothing is ever formatted; with fewer
    than [k + 1] passes the loop is still running.  The sizes are those an
    [int] holds. *)
Theorem format_loop_doubles (k fuel : nat) (buffered : Z)
    (realloc : Z → bool) (size : Z) (passes : nat) :
  buffered < 0 → size * 2 ^ (Z.of_nat k + 1) < 2 ^ 31 →
  (∀ i : nat, (1 <= i <= k)%nat → realloc (size * 2 ^ Z.of_nat i) = true) →
  realloc (size * 2 ^ (Z.of_nat k + 1)) = false →
  format_loop (S k + fuel) buffered realloc size passes = Dropped
  ∧ format_loop k buffered realloc size passes = Unfinished.
Proof.
  intros Hb. revert size passes.
  induction k as [|k IH]; intros size passes Hsize Hok Hfail.
  - split; [|done]. change (1 + fuel)%nat with (S fuel).
    rewrite format_loop_error_step by done.
    replace (size * 2 ^ (Z.of_nat 0 + 1)) with (size * 2) in Hfail by lia.
    by rewrite Hfail.
  - assert (realloc (size * 2) = true) as H1.
    { replace (size * 2) with (size * 2 ^ Z.of_nat 1) by lia.
      apply Hok. lia. }
    assert (∀ z : Z, 0 <= z → size * 2 * 2 ^ z = size * 2 ^ (z + 1)) as Hpow.
    { intros z Hz. rewrite Z.pow_add_r by lia. lia. }
    destruct (IH (size * 2) (S passes)) as [IH1 IH2].
    + rewrite Hpow by lia.
      replace (Z.of_nat k + 1 + 1) with (Z.of_nat (S k) + 1) by lia.
      exact Hsize.
    + intros i Hi. rewrite Hpow by lia.
      replace (Z.of_nat i + 1) with (Z.of_nat (S i)) by lia.
      apply Hok. lia.
    + rewrite Hpow by lia.
      replace (Z.of_nat k + 1 + 1) with (Z.of_nat (S k) + 1) by lia.
      exact Hfail.
    + split.
      * change (S (S k) + fuel)%nat with (S (S k + fuel)).
        rewrite format_loop_error_step, H1 by done. exact IH1.
      * rewrite format_loop_error_step, H1 by done. exact IH2.
Qed.

Lemma format_loop_doubles_witness :
  format_loop 5 (-1) (λ size, bool_decide (size < 5000)) 1024 0 = Dropped
  ∧ format_loop 2 (-1) (λ size, bool_decide (size < 5000)) 1024 0
    = Unfinished.
Proof.
  apply (format_loop_doubles 2 2 (-1) (λ size, bool_decide (size < 5000))
           1024 0).
  - lia.
  - vm_compute. reflexivity.
  - intros i Hi. apply bool_decide_eq_true.
    assert (i = 1 ∨ i = 2)%nat as [-> | ->] by lia; vm_compute; reflexivity.
  - vm_compute. reflexivity.
Defined.

(** ** The values a pass publishes *)

(** Every request of a publication pass is a line to a driver, and the
    number on the line is the delta of the iteration when there is one,
    the size of the backlog otherwise. *)
Theorem publish_values (options : OPTIONS) (timestamp : Z) (new_demand : N)
    (alarmed : bool) (p : PROGRAM) :
  ∃ new : list call,
    calls (sockets (publish options timestamp new_demand alarmed p))
    = calls (sockets p) ++ new
    ∧ ∀ c : call, c ∈ new →
        ∃ (driver : Z) (n : N),
          c = Writef driver (Sockets.format_lu n) ∧ driver ∈ drivers p
          ∧ (n = new_demand ∧ new_demand ≠ 0%N
             ∨ n = N.of_nat (size (unmet_demand p)) ∧ new_demand = 0%N).
Proof.
  unfold publish. case_decide.
  - destruct (publish_pass_calls options timestamp new_demand
                (elements (drivers p)) p) as (new & Hc & Hall).
    exists new. split; [exact Hc|].
    intros c Hin. destruct (Hall c Hin) as (x & n & -> & Hx & Hn).
    exists x, n. split; [done|]. split; [by apply elem_of_elements|done].
  - exists []. split; [by rewrite app_nil_r|]. by intros c ?%elem_of_nil.
Qed.

(** ** Activity stamps *)

Section Stamps.

Variable options : OPTIONS.
Variable L : LISTENERS.

Lemma on_disconnection_stamped (d : Z) (p : PROGRAM) :
  separate p → stamped p → stamped (on_disconnection d p).
Proof.
  intros Hsep Hst. unfold stamped in *.
  rewrite on_disconnection_timestamp_map, dom_delete_L.
  pose proof (on_disconnection_tracked d p Hsep) as Ht.
  revert Ht Hst.
  generalize (tracked (on_disconnection d p)), (tracked p),
    (dom (timestamp_map p)).
  clear. set_solver.
Qed.

Lemma drain_disconnections_stamped (queue : list Z) (p : PROGRAM) :
  separate p → stamped p →
  separate (drain_disconnections queue p)
  ∧ stamped (drain_disconnections queue p).
Proof.
  revert p. induction queue as [|d0 queue IH]; intros p Hsep Hst; simpl;
    unfold Sockets.next_disconnection;
    destruct (disconnections (sockets p)) as [|d q]; try by split.
  simpl. case_decide; [by split|].
  set (p1 := set_sockets _ p).
  apply IH.
  - by apply on_disconnection_separate.
  - by apply on_disconnection_stamped.
Qed.

Lemma on_connection_stamps (timestamp d : Z) (new_demand : N)
    (p : PROGRAM) :
  dom (timestamp_map p) ∪ {[d]}
  ⊆ dom (timestamp_map (on_connection L timestamp d new_demand p).2).
Proof.
  unfold on_connection. cbv zeta.
  step_cases; rewrite ?dom_insert_L; set_solver.
Qed.

Lemma on_connection_stamped (timestamp d : Z) (new_demand : N)
    (p : PROGRAM) :
  stamped p → stamped (on_connection L timestamp d new_demand p).2.
Proof.
  unfold stamped. intros Hst.
  pose proof (on_connection_tracked L timestamp d new_demand p) as Ht.
  pose proof (on_connection_stamps timestamp d new_demand p) as Hd.
  revert Ht Hd Hst.
  generalize (tracked (on_connection L timestamp d new_demand p).2),
    (dom (timestamp_map (on_connection L timestamp d new_demand p).2)),
    (tracked p), (dom (timestamp_map p)).
  clear. set_solver.
Qed.

Lemma drain_connections_stamped (timestamp : Z) (queue : list Z)
    (new_demand : N) (p : PROGRAM) :
  stamped p →
  stamped (drain_connections L timestamp queue new_demand p).2.
Proof.
  revert new_demand p.
  induction queue as [|d0 queue IH]; intros nd p Hst; simpl;
    unfold Sockets.next_connection;
    destruct (connections (sockets p)) as [|d q]; try exact Hst.
  simpl. case_decide; [exact Hst|].
  set (p1 := set_sockets _ p).
  pose proof (on_connection_stamped timestamp d nd p1 Hst) as Hstep.
  destruct (on_connection L timestamp d nd p1) as [nd' p2]. by apply IH.
Qed.

Lemma publish_to_stamps (timestamp : Z) (new_demand : N) (driver : Z)
    (p : PROGRAM) :
  dom (timestamp_map p)
  ⊆ dom (timestamp_map (publish_to options timestamp new_demand driver p)).
Proof.
  unfold publish_to, index.
  destruct (timestamp_map p !! driver) as [last|] eqn:E.
  all: repeat case_decide; simpl; rewrite ?dom_insert_L; set_solver.
Qed.

Lemma publish_stamps (timestamp : Z) (new_demand : N) (alarmed : bool)
    (p : PROGRAM) :
  dom (timestamp_map p)
  ⊆ dom (timestamp_map (publish options timestamp new_demand alarmed p)).
Proof.
  unfold publish. case_decide; [|done].
  generalize (elements (drivers p)). intros l. revert p.
  induction l as [|d l IH]; intros p; [done|].
  simpl. etrans; [apply publish_to_stamps|apply IH].
Qed.

Lemma on_incoming_stamps (timestamp d : Z) (p : PROGRAM) :
  dom (timestamp_map p)
  ⊆ dom (timestamp_map (on_incoming options timestamp d p)).
Proof.
  unfold on_incoming. simpl. repeat case_decide; simpl.
  all: try destruct (verbose options); simpl.
  all: rewrite ?dom_insert_L; set_solver.
Qed.

Lemma drain_incoming_stamps_kept (timestamp : Z) (queue : list Z)
    (p : PROGRAM) :
  dom (timestamp_map p)
  ⊆ dom (timestamp_map (drain_incoming options timestamp queue p)).
Proof.
  revert p. induction queue as [|d0 queue IH]; intros p; simpl;
    unfold Sockets.next_incoming;
    destruct (incoming (sockets p)) as [|d q]; try done.
  simpl. case_decide; [done|].
  set (p1 := set_sockets _ p).
  etrans; [apply (on_incoming_stamps timestamp d p1)|apply IH].
Qed.

Lemma idle_reap_timestamp_map (timestamp : Z) (alarmed : bool)
    (p : PROGRAM) :
  timestamp_map (idle_reap options timestamp alarmed p) = timestamp_map p.
Proof.
  unfold idle_reap. case_decide; [|done]. apply reap_pass_timestamp_map.
Qed.

Lemma signal_intake_timestamp_map (pending : list Z) (alarmed : bool)
    (p : PROGRAM) :
  timestamp_map (signal_intake pending alarmed p).2 = timestamp_map p.
Proof.
  revert alarmed p. induction pending as [|sig rest IH]; intros a p; [done|].
  simpl. repeat case_decide; try done; by rewrite IH.
Qed.

Lemma serve_and_dispatch_stamped (alarmed : bool) (e : ENV) (p : PROGRAM) :
  separate p → stamped p →
  stamped (serve_and_dispatch options L alarmed e p).
Proof.
  intros Hsep Hst. unfold serve_and_dispatch.
  set (p1 := poll alarmed (env_poll e) p).
  pose proof (poll_tables alarmed (env_poll e) p) as Ht1. fold p1 in Ht1.
  assert (timestamp_map p1 = timestamp_map p) as Hm1.
  { subst p1. unfold poll, Sockets.serve. destruct alarmed; [done|].
    by destruct (poll_ok (env_poll e)). }
  assert (separate p1) as Hsep1.
  { pose proof (tables_inv _ _ Ht1) as (H1 & H2 & H3 & H4 & H5 & _).
    unfold separate. by rewrite H1, H2, H3, H4, H5. }
  assert (stamped p1) as Hst1.
  { unfold stamped. by rewrite (tables_tracked _ _ Ht1), Hm1. }
  destruct (drain_disconnections_stamped (disconnections (sockets p1)) p1
              Hsep1 Hst1) as [_ Hst2].
  set (p2 := drain_disconnections (disconnections (sockets p1)) p1) in *.
  pose proof (drain_connections_stamped (env_timestamp e)
                (connections (sockets p2)) 0%N p2 Hst2) as Hst3.
  destruct (drain_connections L (env_timestamp e)
              (connections (sockets p2)) 0%N p2) as [new_demand p3].
  simpl in Hst3. unfold stamped in *.
  rewrite idle_reap_timestamp_map.
  rewrite (tables_tracked _ _ (idle_reap_tables options _ _ _)).
  rewrite (tables_tracked _ _ (drain_incoming_tables options _ _ _)).
  rewrite (tables_tracked _ _ (publish_tables options _ _ _ _)).
  etrans; [exact Hst3|].
  etrans; [apply (publish_stamps (env_timestamp e) new_demand alarmed)|].
  apply drain_incoming_stamps_kept.
Qed.

Lemma iteration_stamped (e : ENV) (p : PROGRAM) :
  separate p → stamped p → stamped (iteration options L e p).
Proof.
  intros Hsep Hst. unfold iteration.
  pose proof (signal_intake_tables (env_signals e) false p) as Ht.
  pose proof (signal_intake_timestamp_map (env_signals e) false p) as Hm.
  destruct (signal_intake (env_signals e) false p) as [alarmed p1].
  simpl in Ht, Hm.
  set (p2 := if alarmed then set_timer p1 else p1).
  assert (tables p2 = tables p) as Ht2 by (by destruct alarmed).
  assert (timestamp_map p2 = timestamp_map p) as Hm2 by (by destruct alarmed).
  assert (separate p2) as Hsep2.
  { pose proof (tables_inv _ _ Ht2) as (H1 & H2 & H3 & H4 & H5 & _).
    unfold separate. by rewrite H1, H2, H3, H4, H5. }
  assert (stamped p2) as Hst2.
  { unfold stamped. by rewrite (tables_tracked _ _ Ht2), Hm2. }
  destruct (terminated p2); [|by apply serve_and_dispatch_stamped].
  unfold stamped.
  rewrite (tables_tracked _ _ (disconnect_listeners_tables L p2)).
  exact Hst2.
Qed.

(** After every iteration of a run with orderly polls, every descriptor
    that is in one of the five tables has an activity stamp, so that the
    idle reaper sees it. *)
Theorem tracked_are_stamped (p : PROGRAM) :
  reachable options L p →
  ∀ d : Z, d ∈ tracked p → is_Some (timestamp_map p !! d).
Proof.
  intros Hp.
  assert (stamped p) as Hst.
  { induction Hp as [|e p Hp IH Ho].
    - unfold stamped, startup. repeat case_decide; set_solver.
    - apply iteration_stamped; [|exact IH].
      by apply (reachable_invariant options L). }
  intros d Hd. apply (elem_of_dom (D:=gset Z)). by apply Hst.
Qed.

End Stamps.

Lemma tracked_are_stamped_witness :
  is_Some (timestamp_map example_pairing !! 9).
Proof.
  apply (tracked_are_stamped example_options example_listeners
           example_pairing example_pairing_reachable).
  assert (tracked example_pairing = {[7; 8; 9]}) as ->
    by (vm_compute; reflexivity).
  set_solver.
Defined.

(** ** The reaper within the iteration *)

Section ReaperPass.

Variable options : OPTIONS.
Variable L : LISTENERS.

Lemma serve_and_dispatch_reaps (alarmed : bool) (e : ENV) (p : PROGRAM) :
  serve_and_dispatch options L alarmed e p
  = idle_reap options (env_timestamp e) alarmed
      (dispatch options L alarmed e p).
Proof.
  unfold serve_and_dispatch, dispatch.
  by destruct (drain_connections _ _ _ _ _).
Qed.

Lemma set_sockets_same (p : PROGRAM) : set_sockets (sockets p) p = p.
Proof. by destruct p. Qed.

Lemma drain_disconnections_nil (p : PROGRAM) :
  disconnections (sockets p) = [] →
  drain_disconnections (disconnections (sockets p)) p = p.
Proof.
  intros H. rewrite H. simpl. unfold Sockets.next_disconnection.
  rewrite H. apply set_sockets_same.
Qed.

Lemma drain_connections_nil (timestamp : Z) (new_demand : N) (p : PROGRAM) :
  connections (sockets p) = [] →
  drain_connections L timestamp (connections (sockets p)) new_demand p
  = (new_demand, p).
Proof.
  intros H. rewrite H. simpl. unfold Sockets.next_connection.
  rewrite H. by rewrite set_sockets_same.
Qed.

Lemma drain_incoming_nil (timestamp : Z) (p : PROGRAM) :
  incoming (sockets p) = [] →
  drain_incoming options timestamp (incoming (sockets p)) p = p.
Proof.
  intros H. rewrite H. simpl. unfold Sockets.next_incoming.
  rewrite H. apply set_sockets_same.
Qed.

(** An alarmed iteration does not poll: on empty queues, all it does before
    the reaper is the publication pass. *)
Lemma dispatch_alarmed (e : ENV) (p : PROGRAM) :
  drained (sockets p) →
  dispatch options L true e p = publish options (env_timestamp e) 0%N true p.
Proof.
  intros (Hd & Hc & Hi). unfold dispatch, poll. cbv zeta.
  rewrite (drain_disconnections_nil p Hd).
  rewrite (drain_connections_nil (env_timestamp e) 0%N p Hc).
  apply drain_incoming_nil.
  pose proof (publish_queues options (env_timestamp e) 0%N true p)
    as (_ & _ & Hq)%queues_inv.
  by rewrite Hq.
Qed.

Lemma publish_to_range (timestamp : Z) (new_demand : N) (driver : Z)
    (p : PROGRAM) :
  clock_range timestamp →
  (∀ d ts : Z, timestamp_map p !! d = Some ts → clock_range ts) →
  ∀ d ts : Z,
    timestamp_map (publish_to options timestamp new_demand driver p) !! d
    = Some ts →
    clock_range ts.
Proof.
  intros Ht Hp d ts. unfold publish_to, index.
  assert (clock_range 0) as H0 by (unfold clock_range; lia).
  destruct (timestamp_map p !! driver) as [last|] eqn:E.
  all: repeat case_decide; simpl.
  all: rewrite ?lookup_insert; repeat case_decide.
  all: try (intros [= <-]; assumption).
  all: apply Hp.
Qed.

Lemma publish_range (timestamp : Z) (new_demand : N) (alarmed : bool)
    (p : PROGRAM) :
  clock_range timestamp →
  (∀ d ts : Z, timestamp_map p !! d = Some ts → clock_range ts) →
  ∀ d ts : Z,
    timestamp_map (publish options timestamp new_demand alarmed p) !! d
    = Some ts →
    clock_range ts.
Proof.
  intros Ht. unfold publish. case_decide; [|done].
  generalize (elements (drivers p)). intros l. revert p.
  induction l as [|x l IH]; intros p Hp; [exact Hp|].
  simpl. apply IH. by apply publish_to_range.
Qed.

Lemma publish_writes (timestamp : Z) (new_demand : N) (alarmed : bool)
    (p : PROGRAM) :
  ∃ sent : list call,
    calls (sockets (publish options timestamp new_demand alarmed p))
    = calls (sockets p) ++ sent
    ∧ ∀ c : call, c ∈ sent → ∃ (driver : Z) (text : string),
                               c = Writef driver text.
Proof.
  unfold publish. case_decide.
  - destruct (publish_pass_calls options timestamp new_demand
                (elements (drivers p)) p) as (new & Hc & Hall).
    exists new. split; [exact Hc|].
    intros c Hin. destruct (Hall c Hin) as (x & n & -> & _). by eexists _, _.
  - exists []. split; [by rewrite app_nil_r|]. by intros c ?%elem_of_nil.
Qed.

(** C7, as the loop is written: in an iteration that consumed an alarm and
    did not find the termination flag set, the requests are the lines of the
    publication pass followed by those of the reaper, and the reaper asks
    for the disconnection of exactly the descriptors whose activity stamp
    lies at least a positive [idle_timeout] behind the clock, once each; a
    stamp ahead of the clock is never due, and with [idle_timeout] zero
    nothing is reaped.  An iteration without alarm ends with the incoming
    loop, and one that finds the flag set asks for the disconnection of the
    three listeners and nothing else: neither runs the reaper. *)
Theorem reaper_exact (e : ENV) (p : PROGRAM) :
  let intake := signal_intake (env_signals e) false p in
  let timestamp := env_timestamp e in
  let q := iteration options L e p in
  drained (sockets p) → clock_range timestamp →
  (∀ d ts : Z, timestamp_map p !! d = Some ts → clock_range ts) →
  (terminated intake.2 = true →
   calls (sockets q)
   = calls (sockets p)
     ++ [Disconnect (demand_descriptor L); Disconnect (supply_descriptor L);
         Disconnect (driver_descriptor L)])
  ∧ (terminated intake.2 = false → intake.1 = true →
     ∃ sent reaped : list call,
       calls (sockets q) = calls (sockets p) ++ sent ++ reaped
       ∧ (∀ c : call, c ∈ sent →
            ∃ (driver : Z) (text : string), c = Writef driver text)
       ∧ NoDup reaped
       ∧ (∀ c : call, c ∈ reaped → ∃ d : Z, c = Disconnect d)
       ∧ (∀ d : Z,
            Disconnect d ∈ reaped
            ↔ idle_timeout options > 0
              ∧ ∃ ts : Z, timestamp_map q !! d = Some ts
                          ∧ timestamp - ts >= idle_timeout options)
       ∧ (∀ d ts : Z, timestamp_map q !! d = Some ts → timestamp - ts < 0 →
                      Disconnect d ∉ reaped)
       ∧ (idle_timeout options = 0 → reaped = []))
  ∧ (terminated intake.2 = false → intake.1 = false →
     q = dispatch options L false e intake.2).
Proof.
  intros intake timestamp q Hdr Ht Hrange.
  pose proof (signal_intake_sockets (env_signals e) false p) as Hs.
  pose proof (signal_intake_timestamp_map (env_signals e) false p) as Hm.
  fold intake in Hs, Hm.
  split; [|split].
  - intros Hstop.
    by destruct (iteration_stopped options L e p Hstop) as (_ & Hc & _).
  - intros Hrun Hal. subst q. unfold iteration. fold intake.
    destruct intake as [alarmed p1]. simpl in *. subst alarmed.
    change (terminated (set_timer p1)) with (terminated p1).
    rewrite Hrun, serve_and_dispatch_reaps.
    assert (drained (sockets (set_timer p1))) as Hdr1
      by (simpl; by rewrite Hs).
    rewrite (dispatch_alarmed e (set_timer p1) Hdr1). fold timestamp.
    set (p3 := publish options timestamp 0%N true (set_timer p1)).
    assert (∀ d ts : Z, timestamp_map p3 !! d = Some ts → clock_range ts)
      as Hrange3.
    { apply publish_range; [exact Ht|]. simpl. by rewrite Hm. }
    destruct (publish_writes timestamp 0%N true (set_timer p1))
      as (sent & Hsent & Hall).
    fold p3 in Hsent. simpl in Hsent. rewrite Hs in Hsent.
    destruct (idle_reap_exact options timestamp true p3 Ht Hrange3)
      as (reaped & Hc & Hnd & Hdis & Hiff & Hneg & Hoff & Htm).
    exists sent, reaped. rewrite Htm.
    split; [by rewrite Hc, Hsent, <- app_assoc|].
    split; [exact Hall|]. split; [exact Hnd|]. split; [exact Hdis|].
    split; [|split; [exact Hneg|]].
    + intros d. rewrite Hiff. naive_solver.
    + intros H0. specialize (Hoff (or_introl H0)).
      rewrite Hoff in Hc. apply (app_inv_head (calls (sockets p3))).
      by rewrite app_nil_r.
  - intros Hrun Hal. subst q. unfold iteration. fold intake.
    destruct intake as [alarmed p1]. simpl in *. subst alarmed.
    rewrite Hrun, serve_and_dispatch_reaps. unfold idle_reap.
    case_decide; [|done]. naive_solver.
Qed.

End ReaperPass.

Lemma reaper_exact_witness :
  ∃ sent reaped : list call,
    calls (sockets (iteration example_options example_listeners
                      example_alarm example_pairing))
    = calls (sockets example_pairing) ++ sent ++ reaped
    ∧ Disconnect 9 ∈ reaped.
Proof.
  assert (drained (sockets example_pairing)) as Hdr
    by (vm_compute; by repeat split).
  assert (clock_range (env_timestamp example_alarm)) as Ht
    by (vm_compute; by split).
  assert (timestamp_map example_pairing
          = <[7 := 101]> (<[8 := 101]> (<[9 := 101]> ∅))) as Hm
    by (vm_compute; reflexivity).
  assert (∀ d ts : Z, timestamp_map example_pairing !! d = Some ts →
                      clock_range ts) as Hts.
  { intros d ts. rewrite Hm. intros Hl.
    assert (ts = 101) as ->.
    { rewrite !lookup_insert in Hl. repeat case_decide; by simplify_eq. }
    unfold clock_range. lia. }
  destruct (reaper_exact example_options example_listeners example_alarm
              example_pairing Hdr Ht Hts) as (_ & H & _).
  destruct H as (sent & reaped & Hc & _ & _ & _ & Hiff & _).
  - vm_compute. reflexivity.
  - vm_compute. reflexivity.
  - exists sent, reaped. split; [exact Hc|].
    apply Hiff. split; [vm_compute; reflexivity|].
    exists 101. split; [vm_compute; reflexivity|].
    vm_compute. discriminate.
Defined.

(** C7, as the claim states it, fails.  The iteration at second 161 takes
    an alarm and then SIGTERM: the alarm is consumed and the timer armed
    again, [idle_timeout] is 60, and the stamps of 7, 8 and 9 are 60 seconds
    old; yet the iteration asks only for the disconnection of the three
    listeners, the [continue] of line 123 having skipped the reaper. *)
Lemma reaper_counterexample :
  let q := iteration example_options example_listeners example_alarm_sigterm
             example_pairing in
  (signal_intake (env_signals example_alarm_sigterm) false
     example_pairing).1 = true
  ∧ timers q = S (timers example_pairing)
  ∧ idle_timeout example_options = 60
  ∧ timestamp_map example_pairing
    = <[7 := 101]> (<[8 := 101]> (<[9 := 101]> ∅))
  ∧ env_timestamp example_alarm_sigterm - 101 = 60
  ∧ calls (sockets q)
    = calls (sockets example_pairing)
      ++ [Disconnect 4; Disconnect 3; Disconnect 5].
Proof. vm_compute. by repeat split. Qed.

(** ** A stamp that outlives its connection *)

(** Orderliness of a poll can be checked by computation. *)
Lemma orderly_check (p : PROGRAM) (w : POLL) :
  bool_decide
    ((NO_DESCRIPTOR ∉ poll_closed w)
     ∧ (NO_DESCRIPTOR ∉ fst <$> poll_accepted w)
     ∧ (NO_DESCRIPTOR ∉ fst <$> poll_received w)
     ∧ NoDup (fst <$> poll_accepted w)
     ∧ Forall (λ d : Z, d ∉ tracked p ∨ d ∈ poll_closed w)
         (fst <$> poll_accepted w)) = true →
  orderly p w.
Proof.
  intros (H1 & H2 & H3 & H4 & H5)%bool_decide_eq_true.
  unfold orderly. split_and!; try done.
  by apply Forall_forall.
Qed.

Lemma example_both_closed_reachable :
  reachable example_options example_listeners example_both_closed.
Proof.
  unfold example_both_closed, example_first_closed, example_pair.
  repeat apply reachable_iteration; try apply reachable_startup.
  all: apply orderly_check; vm_compute; reflexivity.
Qed.

(** C6, at a failing input: after the disconnection of 7 the entry of its
    partner 8 holds [NO_DESCRIPTOR] and the disconnection of 8 is asked for;
    the next poll reports that disconnection and a byte read from 8.  The
    disconnection loop erases the stamp of 8 (line 142), and the incoming
    loop, which runs after it, logs the forbidden condition and writes the
    stamp back (line 294).  Both disconnections are processed, neither
    descriptor is in a pairing table, and the stamp of 8 stays: an alarm one
    minute later has the reaper ask for the disconnection of 8 again.  The
    polls of the run are orderly. *)
Theorem stale_stamp_after_teardown :
  reachable example_options example_listeners example_both_closed
  ∧ supply_map example_pair = {[7 := 8]}
  ∧ demand_map example_pair = {[8 := 7]}
  ∧ demand_map example_first_closed = {[8 := NO_DESCRIPTOR]}
  ∧ timestamp_map example_first_closed = {[8 := 101]}
  ∧ calls (sockets example_first_closed)
    = calls (sockets example_pair) ++ [Disconnect 8]
  ∧ tracked example_both_closed = ∅
  ∧ timestamp_map example_both_closed = {[8 := 103]}
  ∧ log example_both_closed
    = log example_first_closed ++ [LogDisconnected 8; LogForbidden 274]
  ∧ calls (sockets example_both_closed)
    = calls (sockets example_first_closed)
  ∧ calls (sockets (iteration example_options example_listeners
                      (mkENV [SIGALRM] (mkPOLL true [] [] []) 163)
                      example_both_closed))
    = calls (sockets example_both_closed) ++ [Disconnect 8].
Proof.
  split; [apply example_both_closed_reachable|].
  vm_compute. by repeat split.
Qed.
